(** * Verification of sync-keymaps.py

    A shallow embedding of the keymap synchroniser: the shortcut translator
    ([convert_shortcut]), the merge loop of [sync_keymaps] with its local
    helper [add_shortcuts], and the writer [save_keymap].

    Python [str] values are modelled as [string] (the UTF-8 bytes of the
    text).  The tokens searched for are ASCII and UTF-8 is self-synchronising,
    so substring search and replacement on the bytes coincide with the same
    operations on code points, and byte-wise lexicographic order coincides
    with code-point order.

    Two things the script does not determine are parameters of the
    development: the order in which a Python [set] is iterated, and the XML
    libraries ([ET.parse], [ET.tostring], [minidom]).  Documents are
    [ElementTree] trees; the mutable elements the script holds references to
    are addressed by their position under the root.  The file system maps a
    path to the text of a file; a run returns the exception it ended with or
    the two root objects as it leaves them, together with the file system. *)

From Stdlib Require Import Ascii.
From stdpp Require Import base list strings gmap sets sorting.

#[local] Set Warnings "-clear-no-such-hyp".

(** ** Python string primitives used by the script *)

(** [s.startswith(p)] *)
Fixpoint startswith (s p : string) {struct p} : bool :=
  match p, s with
  | "", _ => true
  | String _ _, "" => false
  | String a p', String b s' => if decide (a = b) then startswith s' p' else false
  end.

(** [sub in s] *)
Fixpoint contains (s sub : string) : bool :=
  startswith s sub ||
  match s with
  | "" => false
  | String _ s' => contains s' sub
  end.

(** [c in s] for a single character *)
Fixpoint mem_char (c : ascii) (s : string) : bool :=
  match s with
  | "" => false
  | String a s' => if decide (c = a) then true else mem_char c s'
  end.

(** [s.replace(old, new)] for a non-empty [old]: scan from the left, replace
    each occurrence found and resume after it (occurrences never overlap).
    [skip] counts the characters of a matched occurrence still to be passed. *)
Fixpoint replace_go (old new : string) (skip : nat) (s : string) : string :=
  match s with
  | "" => ""
  | String c s' =>
      match skip with
      | S k => replace_go old new k s'
      | O =>
          if startswith s old
          then new +:+ replace_go old new (String.length old - 1) s'
          else String c (replace_go old new 0 s')
      end
  end.

Definition replace (s old new : string) : string := replace_go old new 0 s.

(** ** Shortcut translator (lines 60-74) *)

Definition convert_shortcut (shortcut : string) (to_mac : bool) : string :=
  if to_mac then replace shortcut "ctrl" "meta"
  else replace shortcut "meta" "ctrl".

(** ** Exceptions *)

(** The exceptions the script can end with: [OSError] (a file that is missing
    or may not be opened), [ParseError] (ill-formed XML), [AttributeError]
    ([None.replace]) and [TypeError] (ordering [None], or serialising an
    attribute whose value is [None]). *)
Inductive exn : Type := OSError | ParseError | AttributeError | TypeError.

Inductive result (A : Type) : Type :=
  | Ok (a : A)
  | Raise (e : exn).
Arguments Ok {A} a.
Arguments Raise {A} e.

#[global] Instance result_ret : MRet result := λ A, Ok.
#[global] Instance result_bind : MBind result :=
  λ A B f r, match r with Ok a => f a | Raise e => Raise e end.

(** A [for] loop whose body may raise. *)
Fixpoint for_each {S K : Type} (body : S → K → result S) (st : S) (ks : list K)
  : result S :=
  match ks with
  | [] => Ok st
  | k :: ks' => st' ← body st k; for_each body st' ks'
  end.

(** ** ElementTree elements *)

(** An [xml.etree.ElementTree.Element]: tag, attribute dictionary (in
    insertion order), text, tail and child elements.  An attribute value is a
    [str], or [None] when the script itself stored [None] there.  The parser
    keeps neither comments nor processing instructions, so every child is an
    element. *)
#[warnings="-register-all"]
Inductive Element : Type :=
  Elem { tag : string;
         attrib : list (string * option string);
         text : option string;
         tail : option string;
         children : list Element }.

#[global] Instance Element_inhabited : Inhabited Element :=
  populate (Elem "" [] None None []).

Fixpoint attrib_get (d : list (string * option string)) (key : string)
  : option string :=
  match d with
  | [] => None
  | (k, v) :: d' => if decide (k = key) then v else attrib_get d' key
  end.

(** [e.get(key)] *)
Definition get (e : Element) (key : string) : option string :=
  attrib_get (attrib e) key.

(** [e.findall(t)] for a plain tag name: the direct children with that tag,
    in document order. *)
Definition findall (e : Element) (t : string) : list Element :=
  filter (λ c, tag c = t) (children e).

Definition set_children (e : Element) (ch : list Element) : Element :=
  Elem (tag e) (attrib e) (text e) (tail e) ch.

(** [ET.SubElement(parent, t, at)]: the parent with a new last child.  The
    new element is the one at index [length (children parent)]. *)
Definition SubElement (parent : Element) (t : string)
    (at_ : list (string * option string)) : Element :=
  set_children parent (children parent ++ [Elem t at_ None None []]).

(** Elements are mutable objects reached through references.  A reference to
    a child of a root is modelled as its index in the root's child list:
    [deref] reads through it and [update] mutates the object it points to. *)
Definition deref (root : Element) (i : nat) : Element := children root !!! i.

Definition update (root : Element) (i : nat) (f : Element → Element) : Element :=
  set_children root (alter f i (children root)).

(** ** The merge loop of [sync_keymaps] (lines 89-129) *)

(** [{action.get('id'): action for action in root.findall('action')}]: a
    later action with the same id overrides an earlier one. *)
Fixpoint index_actions (i : nat) (l : list Element)
    (d : gmap (option string) nat) : gmap (option string) nat :=
  match l with
  | [] => d
  | a :: l' =>
      index_actions (S i) l'
        (if decide (tag a = "action") then <[get a "id" := i]> d else d)
  end.

Definition action_dict (root : Element) : gmap (option string) nat :=
  index_actions 0 (children root) ∅.

(** [{s.get('first-keystroke') for s in action.findall('keyboard-shortcut')}] *)
Definition shortcut_values (action : Element) : list (option string) :=
  (λ s, get s "first-keystroke") <$> findall action "keyboard-shortcut".

Definition shortcut_set (action : Element) : gset (option string) :=
  list_to_set (shortcut_values action).

Definition convert_opt (to_mac : bool) (s : option string) : option string :=
  (λ x, convert_shortcut x to_mac) <$> s.

(** [{convert_shortcut(s, to_mac=...) for s in shortcuts}]: [None.replace]
    raises [AttributeError]. *)
Definition convert_all (shortcuts : gset (option string)) (to_mac : bool)
  : result (gset (option string)) :=
  if decide (None ∈ shortcuts) then Raise AttributeError
  else Ok (set_map (convert_opt to_mac) shortcuts).

(** The action the script's dictionary associates with an id, and its
    keystroke set (empty when the document has no such action). *)
Definition lookup_action (root : Element) (action_id : option string)
  : option Element :=
  i ← action_dict root !! action_id; children root !! i.

Definition keystrokes_of (root : Element) (action_id : option string)
  : gset (option string) :=
  from_option shortcut_set ∅ (lookup_action root action_id).

Definition action_ids (root : Element) : gset (option string) :=
  dom (action_dict root).

(** ** Sorting at save time (line 34) *)

(** The order of two keys that are both strings; with [None] on either side
    the comparison raises and [sorted_by_id] never gets there. *)
Definition id_le (a b : Element) : bool :=
  match get a "id", get b "id" with
  | Some x, Some y => String.leb x y
  | _, _ => true
  end.

(** A stable sort: an element goes in front of the first one that is not
    smaller. *)
Fixpoint insert_by_id (a : Element) (l : list Element) : list Element :=
  match l with
  | [] => [a]
  | b :: l' => if id_le a b then a :: b :: l' else b :: insert_by_id a l'
  end.

Definition sort_by_id (l : list Element) : list Element :=
  foldr insert_by_id [] l.

(** [sorted(actions, key=lambda a: a.get('id'))].  Python's sort is stable and
    compares keys with [<] only; a comparison with [None] on either side
    raises [TypeError].  A list of two or more elements cannot be sorted
    without every element taking part in a comparison; a shorter list is
    returned without any comparison. *)
Definition sorted_by_id (actions : list Element) : result (list Element) :=
  if decide (2 ≤ length actions ∧ Exists (λ a, get a "id" = None) actions)
  then Raise TypeError
  else Ok (sort_by_id actions).

(** Lines 33-40 of [save_keymap]: sort the action children, remove every
    child of the root, append the sorted actions. *)
Definition reorder_actions (root : Element) : result Element :=
  actions ← sorted_by_id (findall root "action");
  Ok (set_children root actions).

(** ** Text post-processing of [save_keymap] (lines 50-54) *)

Definition LF : ascii := Ascii.ascii_of_nat 10.

(** [s.split('\n')] *)
Fixpoint split_lines (s : string) : list string :=
  match s with
  | "" => [""]
  | String c s' =>
      if decide (c = LF) then "" :: split_lines s'
      else match split_lines s' with
           | l :: ls => String c l :: ls
           | [] => [String c ""]
           end
  end.

(** ['\n'.join(lines)] *)
Definition join_lines (lines : list string) : string :=
  String.concat (String LF "") lines.

Definition byte_is (c : ascii) (n : nat) : bool :=
  bool_decide (Ascii.nat_of_ascii c = n).

Definition byte_in (c : ascii) (lo hi : nat) : bool :=
  bool_decide (lo ≤ Ascii.nat_of_ascii c ≤ hi).

(** [not line.strip()]: every character of the line is white space.  The
    white-space characters of Python are U+0009-000D, U+001C-0020, U+0085,
    U+00A0, U+1680, U+2000-200A, U+2028, U+2029, U+202F, U+205F and U+3000,
    matched here in their UTF-8 encoding. *)
Fixpoint is_blank (s : string) : bool :=
  match s with
  | "" => true
  | String c1 s1 =>
      if byte_in c1 9 13 || byte_in c1 28 32 then is_blank s1
      else
        match s1 with
        | "" => false
        | String c2 s2 =>
            if byte_is c1 194 && (byte_is c2 133 || byte_is c2 160)
            then is_blank s2
            else
              match s2 with
              | "" => false
              | String c3 s3 =>
                  if (byte_is c1 225 && byte_is c2 154 && byte_is c3 128)
                     || (byte_is c1 226 && byte_is c2 128
                         && (byte_in c3 128 138 || byte_in c3 168 169
                             || byte_is c3 175))
                     || (byte_is c1 226 && byte_is c2 129 && byte_is c3 159)
                     || (byte_is c1 227 && byte_is c2 128 && byte_is c3 128)
                  then is_blank s3
                  else false
              end
        end
  end.

(** Lines 50-54: drop the blank lines, then the XML declaration line. *)
Definition strip_blank_lines (xml : string) : string :=
  join_lines (filter (λ line, is_blank line = false) (split_lines xml)).

Definition strip_declaration (pretty_xml : string) : string :=
  if startswith pretty_xml "<?xml"
  then join_lines (drop 1 (split_lines pretty_xml))
  else pretty_xml.

(** ** Files *)

Record file : Type := File { content : string; readable : bool; writable : bool }.

(** [open(path, 'w')] followed by [write]: creates the file, or replaces the
    content of a file that may be written. *)
Definition write_file (fs : gmap string file) (path : string) (data : string)
  : result (gmap string file) :=
  match fs !! path with
  | None => Ok (<[path := File data true true]> fs)
  | Some f =>
      if writable f then Ok (<[path := File data (readable f) true]> fs)
      else Raise OSError
  end.

(** [True] when every attribute value below [e] is a string. *)
Fixpoint serializable (e : Element) : bool :=
  forallb (λ kv, bool_decide (is_Some kv.2)) (attrib e)
  && forallb serializable (children e).

(** ** The XML libraries *)

(** The library functions the script calls: [ET.parse] on the content of a
    file ([None] for ill-formed XML), [ET.tostring(root, encoding='unicode')]
    and [xml.dom.minidom.parseString(s).toprettyxml(indent='  ')]. *)
Class XmlLibrary : Type := {
  ET_parse : string → option Element;
  ET_tostring : Element → string;
  toprettyxml : string → string
}.

(** ** Vocabulary of the statements *)

(** The elements the merge creates. *)
Definition new_shortcut (keystroke : option string) : Element :=
  Elem "keyboard-shortcut" [("first-keystroke", keystroke)] None None [].

Definition new_action (action_id : option string) : Element :=
  Elem "action" [("id", action_id)] None None [].

(** The dictionary key of a child of the root: its id when it is an action. *)
Definition akey (a : Element) : option (option string) :=
  if decide (tag a = "action") then Some (get a "id") else None.

(** The last action with a given id among the children of a root. *)
Definition find_action (l : list Element) (k : option string) : option Element :=
  last (filter (λ a, akey a = Some k) l).

(** [i] is the position of the last action with id [k] in [l]. *)
Definition is_last_action (l : list Element) (k : option string) (i : nat) : Prop :=
  (∃ a, l !! i = Some a ∧ akey a = Some k)
  ∧ ∀ j b, i < j → l !! j = Some b → akey b ≠ Some k.

(** Ascending order of two elements by id: both carry an id and the first
    id is lexicographically at most the second. *)
Definition id_leq (a b : Element) : Prop :=
  ∃ x y, get a "id" = Some x ∧ get b "id" = Some y ∧ String.le x y.

(** [a'] is [a] with new shortcuts appended: same tag, attributes, text and
    tail, the children of [a] kept in place and followed by shortcuts created
    by the merge, whose keystrokes are pairwise distinct and none of which [a]
    already had. *)
Definition grows (a a' : Element) : Prop :=
  tag a' = tag a ∧ attrib a' = attrib a ∧ text a' = text a ∧ tail a' = tail a
  ∧ ∃ ks, children a' = children a ++ (new_shortcut <$> ks)
          ∧ NoDup ks ∧ ∀ k, k ∈ ks → k ∉ shortcut_values a.

(** Every action of [root'] is an action of [root], or a new empty action,
    with shortcuts appended whose keystrokes are pairwise distinct and differ
    from the keystrokes it already had. *)
Definition adds_no_duplicate (root root' : Element) : Prop :=
  ∀ a', a' ∈ children root' →
    ∃ a added,
      (a ∈ findall root "action" ∨ ∃ k, a = new_action k)
      ∧ shortcut_values a' = shortcut_values a ++ added
      ∧ NoDup added
      ∧ (∀ k, k ∈ added → k ∉ shortcut_values a)
      ∧ (NoDup (shortcut_values a) → NoDup (shortcut_values a')).

(** A document whose only action is one without an id. *)
Definition single_idless (root : Element) : Prop :=
  ∃ a, findall root "action" = [a] ∧ get a "id" = None.

(** The element with every text and tail removed: what is left is the
    structure the script works on (tags, attributes, children). *)
Fixpoint erase (e : Element) : Element :=
  match e with
  | Elem tg at_ _ _ ch => Elem tg at_ None None (erase <$> ch)
  end.


(** A file that [load_keymap] cannot load: missing, unreadable or not
    well-formed. *)
Definition unloadable {xml : XmlLibrary} (fs : gmap string file) (path : string)
  : Prop :=
  match fs !! path with
  | None => True
  | Some f => readable f = false ∨ ET_parse (content f) = None
  end.

(** The keystroke sets the loop computes for an id (lines 124-125), from the
    documents as loaded. *)
Definition all_windows (w m : Element) (k : option string) : gset (option string) :=
  keystrokes_of w k ∪ set_map (convert_opt false) (keystrokes_of m k).

Definition all_mac (w m : Element) (k : option string) : gset (option string) :=
  keystrokes_of m k ∪ set_map (convert_opt true) (keystrokes_of w k).

(** An id for which the loop body raises. *)
Definition bad_id (w m : Element) (k : option string) : Prop :=
  None ∈ keystrokes_of m k ∨ None ∈ keystrokes_of w k.

#[global] Instance bad_id_dec w m k : Decision (bad_id w m k).
Proof. unfold bad_id. apply _. Defined.

(** Two texts that have the same lines once the blank ones are left out. *)
Definition same_nonblank_lines (s1 s2 : string) : Prop :=
  filter (λ line, is_blank line = false) (split_lines s1)
  = filter (λ line, is_blank line = false) (split_lines s2).

(** A document in which every attribute value is a string, every action has
    an id and every keyboard shortcut of an action a first keystroke. *)
Definition well_formed (root : Element) : bool :=
  serializable root
  && forallb (λ a, bool_decide (is_Some (get a "id"))
                   && forallb (λ s, bool_decide (is_Some (get s "first-keystroke")))
                              (findall a "keyboard-shortcut"))
             (findall root "action").

(** Closes an equation between closed terms by evaluating both sides. *)
Ltac vm_refl :=
  lazymatch goal with
  | |- ?l = ?r => exact (@eq_refl _ r <: l = r)
  end.

(** Closes an equation between closed terms through their common value. *)
Ltac vm_via :=
  lazymatch goal with
  | |- ?l = ?r =>
      let v := eval vm_compute in l in
      transitivity v;
      [exact (@eq_refl _ v <: l = v) | exact (@eq_refl _ v <: v = r)]
  end.

(** Turns a boolean test on bytes into the arithmetic it stands for. *)
Ltac byte_facts H :=
  apply Is_true_true in H;
  repeat first [rewrite orb_True in H | rewrite andb_True in H];
  unfold byte_is, byte_in in H;
  rewrite ?bool_decide_spec in H.

Section Sync.

(** Iteration order of a Python [set]: left unspecified, it may be any
    enumeration of the elements without repetition. *)
Variable iter : gset (option string) → list (option string).
Hypothesis iter_perm : ∀ X, iter X ≡ₚ elements X.

Context {xml : XmlLibrary}.

(** *** [add_shortcuts] (lines 94-99) *)
Definition add_shortcuts (action : Element) (shortcuts : gset (option string))
  : Element :=
  let existing_shortcuts := shortcut_set action in
  foldl (λ act keystroke,
           if decide (keystroke ∈ existing_shortcuts) then act
           else SubElement act "keyboard-shortcut"
                  [("first-keystroke", keystroke)])
        action (iter shortcuts).

(** *** One iteration of the loop over the action ids (lines 104-129) *)

(** Lines 106-113, the same for both documents: the action the dictionary
    holds for the id or, when it holds none, a new action appended to the
    root.  Returns the root and the reference to the action. *)
Definition get_or_create (actions : gmap (option string) nat) (root : Element)
    (action_id : option string) : Element * nat :=
  match actions !! action_id with
  | Some i => (root, i)
  | None => (SubElement root "action" [("id", action_id)],
             length (children root))
  end.

Definition sync_action (windows_actions mac_actions : gmap (option string) nat)
    (roots : Element * Element) (action_id : option string)
  : result (Element * Element) :=
  let '(windows_root, windows_action) :=
    get_or_create windows_actions roots.1 action_id in
  let '(mac_root, mac_action) :=
    get_or_create mac_actions roots.2 action_id in
  let windows_shortcuts := shortcut_set (deref windows_root windows_action) in
  let mac_shortcuts := shortcut_set (deref mac_root mac_action) in
  mac_converted ← convert_all mac_shortcuts false;
  windows_converted ← convert_all windows_shortcuts true;
  let all_windows_shortcuts := windows_shortcuts ∪ mac_converted in
  let all_mac_shortcuts := mac_shortcuts ∪ windows_converted in
  Ok (update windows_root windows_action
        (λ a, add_shortcuts a all_windows_shortcuts),
      update mac_root mac_action
        (λ a, add_shortcuts a all_mac_shortcuts)).

(** *** Lines 89-129: the two dictionaries, the id set and the loop *)
Definition merge_keymaps (windows_root mac_root : Element)
  : result (Element * Element) :=
  let windows_actions := action_dict windows_root in
  let mac_actions := action_dict mac_root in
  let all_action_ids := dom windows_actions ∪ dom mac_actions in
  for_each (sync_action windows_actions mac_actions)
           (windows_root, mac_root) (iter all_action_ids).

(** *** [load_keymap] (lines 11-22) *)
Definition load_keymap (fs : gmap string file) (file_path : string)
  : result Element :=
  match fs !! file_path with
  | None => Raise OSError
  | Some f =>
      if readable f then
        match ET_parse (content f) with
        | Some root => Ok root
        | None => Raise ParseError
        end
      else Raise OSError
  end.

(** *** [save_keymap] (lines 24-58) *)

(** Lines 43-54: the text written for a root whose children are in place. *)
Definition render (root : Element) : string :=
  strip_declaration (strip_blank_lines (toprettyxml (ET_tostring root))).

(** Returns the root as [save_keymap] leaves it, and the file system. *)
Definition save_keymap (root : Element) (file_path : string)
    (fs : gmap string file) : result (Element * gmap string file) :=
  root ← reorder_actions root;
  if serializable root then
    fs ← write_file fs file_path (render root);
    Ok (root, fs)
  else Raise TypeError.

(** *** [sync_keymaps] (lines 76-133) *)

(** The outcome is the pair of root objects as the run leaves them, or the
    exception that ended it; the second component is the file system at
    that point. *)
Definition sync_keymaps (windows_file mac_file : string)
    (fs : gmap string file)
  : result (Element * Element) * gmap string file :=
  match load_keymap fs windows_file with
  | Raise e => (Raise e, fs)
  | Ok windows_root =>
      match load_keymap fs mac_file with
      | Raise e => (Raise e, fs)
      | Ok mac_root =>
          match merge_keymaps windows_root mac_root with
          | Raise e => (Raise e, fs)
          | Ok (windows_root, mac_root) =>
              match save_keymap windows_root windows_file fs with
              | Raise e => (Raise e, fs)
              | Ok (windows_root, fs1) =>
                  match save_keymap mac_root mac_file fs1 with
                  | Raise e => (Raise e, fs1)
                  | Ok (mac_root, fs2) => (Ok (windows_root, mac_root), fs2)
                  end
              end
          end
      end
  end.

(** *** The script run as a program (lines 135-140) *)

(** The outcome is the line printed, or the exception that ended the script
    before anything was printed. *)
Definition main (fs : gmap string file) : result string * gmap string file :=
  let windows_keymap := "Windows - Fraser.xml" in
  let mac_keymap := "macOS - Fraser.xml" in
  match sync_keymaps windows_keymap mac_keymap fs with
  | (Ok _, fs') => (Ok "Keymap synchronization complete!", fs')
  | (Raise e, fs') => (Raise e, fs')
  end.

(** *** The state of a root after the loop has handled the ids [done] *)
Definition merged_children (root : Element)
    (target : option string → gset (option string))
    (done : list (option string)) : list Element :=
  imap (λ i a,
          if decide (action_dict root !! get a "id" = Some i ∧ get a "id" ∈ done)
          then add_shortcuts a (target (get a "id")) else a)
       (children root)
  ++ ((λ k, add_shortcuts (new_action k) (target k))
        <$> filter (λ k, action_dict root !! k = None) done).

Definition merged (w m : Element) (done : list (option string))
  : Element * Element :=
  (set_children w (merged_children w (all_windows w m) done),
   set_children m (merged_children m (all_mac w m) done)).

(** [t'] is what the parser reads back from the text written for [t]: the
    same structure up to text and tail (white space), and a fixed point of
    the pretty-printer. *)
Definition reads_back (t t' : Element) : Prop :=
  ET_parse (render t) = Some t' ∧ erase t' = erase t ∧ render t' = render t.

(** ** Example documents, and an XML library for them *)

Definition shortcut (keystroke : string) : Element :=
  Elem "keyboard-shortcut" [("first-keystroke", Some keystroke)] None None [].

Definition action (action_id : string) (keystrokes : list string) : Element :=
  Elem "action" [("id", Some action_id)] None None (shortcut <$> keystrokes).

Definition keymap (actions : list Element) : Element :=
  Elem "keymap" [("version", Some "1"); ("name", Some "Fraser")] None None actions.

(** The scenarios of the specification. *)
Definition windows_paste : Element :=
  keymap [action "paste" ["ctrl+v"]; action "copy" ["ctrl+c"]].
Definition mac_paste : Element := keymap [action "paste" ["meta+shift+v"]].

Definition mac_empty : Element := keymap [].

(** A document that holds the same shortcut twice. *)
Definition windows_twice : Element := keymap [action "undo" ["ctrl+z"; "ctrl+z"]].

(** Two documents whose only action has no id. *)
Definition windows_noid : Element :=
  keymap [Elem "action" [] None None [shortcut "ctrl+q"]].
Definition mac_noid : Element := keymap [Elem "action" [] None None []].

(** A document with a child of the root that is not an action. *)
Definition windows_mixed : Element :=
  keymap [action "save" ["ctrl+s"]; Elem "option" [("name", Some "x")] None None [];
          action "open" ["ctrl+o"]].

(** A serializer for the examples: tags and attributes on one line. *)
Definition example_attrs (at_ : list (string * option string)) : string :=
  foldr (λ kv acc, " " +:+ kv.1 +:+ "='" +:+ default "None" kv.2 +:+ "'" +:+ acc)
        "" at_.

Fixpoint example_tostring (e : Element) : string :=
  match e with
  | Elem tg at_ _ _ ch =>
      "<" +:+ tg +:+ example_attrs at_ +:+ ">"
      +:+ foldr (λ c acc, example_tostring c +:+ acc) "" ch
      +:+ "</" +:+ tg +:+ ">"
  end.

(** A pretty-printer for the examples: it only puts the XML declaration in
    front. *)
Definition example_toprettyxml (xml : string) : string :=
  "<?xml version='1.0' ?>" +:+ String LF xml.

(** A parser for the examples: it knows the documents of [known] by the text
    the example serializer writes for them. *)
Definition example_parse (known : list Element) (text : string) : option Element :=
  find (λ t, bool_decide (example_tostring t = text)) known.

Definition windows_file : string := "Windows - Fraser.xml".
Definition mac_file : string := "macOS - Fraser.xml".

(** The two files of the script, holding the given documents. *)
Definition example_fs (w m : Element) : gmap string file :=
  <[windows_file := File (example_tostring w) true true]>
    (<[mac_file := File (example_tostring m) true true]> ∅).

(** The XML library of the examples. *)
Definition example_library (known : list Element) : XmlLibrary :=
  {| ET_parse := example_parse known;
     ET_tostring := example_tostring;
     toprettyxml := example_toprettyxml |}.

(** The documents a run leaves for [windows_paste] and [mac_paste]. *)
Definition windows_paste_synced : Element :=
  keymap [action "copy" ["ctrl+c"]; action "paste" ["ctrl+v"; "ctrl+shift+v"]].
Definition mac_paste_synced : Element :=
  keymap [action "copy" ["meta+c"]; action "paste" ["meta+shift+v"; "meta+v"]].

Definition paste_library : XmlLibrary :=
  example_library [windows_paste; mac_paste; windows_paste_synced; mac_paste_synced].

Definition mac_twice_synced : Element := keymap [action "undo" ["meta+z"]].
Definition mac_noid_synced : Element :=
  keymap [Elem "action" [] None None [shortcut "meta+q"]].
Definition windows_mixed_saved : Element :=
  keymap [action "open" ["ctrl+o"]; action "save" ["ctrl+s"]].

Definition noid_library : XmlLibrary := example_library [windows_noid; mac_noid; mac_empty].

(** A Windows document with two actions of the same id, and a Mac document
    with one; the documents their run leaves. *)
Definition windows_run : Element :=
  keymap [action "run" ["ctrl+r"]; action "run" ["shift+F10"]].
Definition mac_run : Element := keymap [action "run" ["meta+r"]].
Definition windows_run_synced : Element :=
  keymap [action "run" ["ctrl+r"]; action "run" ["shift+F10"; "ctrl+r"]].
Definition mac_run_synced : Element :=
  keymap [action "run" ["meta+r"; "shift+F10"]].

(** A Mac document with a keyboard shortcut that has no first keystroke. *)
Definition mac_broken : Element :=
  keymap [Elem "action" [("id", Some "find")] None None
            [Elem "keyboard-shortcut" [("second-keystroke", Some "f")] None None []]].

(** A Windows document with two actions, one of them without an id. *)
Definition windows_halfid : Element :=
  keymap [action "save" ["ctrl+s"]; Elem "action" [] None None [shortcut "ctrl+q"]].

Definition halfid_library : XmlLibrary := example_library [windows_halfid; mac_empty].
Definition run_library : XmlLibrary := example_library [windows_run; mac_run].
Definition broken_library : XmlLibrary := example_library [windows_paste; mac_broken].

(** The two files of the script with a Mac file that may not be written. *)
Definition readonly_fs (w m : Element) : gmap string file :=
  <[windows_file := File (example_tostring w) true true]>
    (<[mac_file := File (example_tostring m) true false]> ∅).

(** ** The XML libraries on documents that need no escaping *)

(** The two writers of the standard library, for elements whose names and
    strings hold no character that the writers escape, a line feed in an
    attribute value apart. *)

Definition DQ : string := String (Ascii.ascii_of_nat 34) "".

(** [ET.tostring(root, encoding='unicode')]: attribute values in double
    quotes, a line feed in them written as a character reference; [ />] for
    an element with neither text nor children; text and tail as they are. *)
Definition etree_attrs (at_ : list (string * option string)) : string :=
  foldr (λ kv acc,
           " " +:+ kv.1 +:+ "=" +:+ DQ
           +:+ replace (default "" kv.2) (String LF "") "&#10;" +:+ DQ +:+ acc)
        "" at_.

Fixpoint etree_tostring (e : Element) : string :=
  match e with
  | Elem tg at_ tx tl ch =>
      "<" +:+ tg +:+ etree_attrs at_
      +:+ match default "" tx, ch with
          | "", [] => " />"
          | t, _ =>
              ">" +:+ t +:+ foldr (λ c acc, etree_tostring c +:+ acc) "" ch
              +:+ "</" +:+ tg +:+ ">"
          end
      +:+ default "" tl
  end.

(** [minidom]'s [writexml] with [addindent='  '] and [newl='\n'] on the DOM
    of an element.  The child nodes of an element are its text (when not
    empty), then each child followed by its tail (when not empty).  A text
    node is written as indentation, data, line break; an attribute value is
    written as it is. *)
Definition minidom_text (indent : string) (data : option string) : string :=
  match default "" data with
  | "" => ""
  | d => indent +:+ d +:+ String LF ""
  end.

Definition minidom_attrs (at_ : list (string * option string)) : string :=
  foldr (λ kv acc, " " +:+ kv.1 +:+ "=" +:+ DQ +:+ default "" kv.2 +:+ DQ +:+ acc)
        "" at_.

Fixpoint minidom_writexml (indent : string) (e : Element) : string :=
  match e with
  | Elem tg at_ tx _ ch =>
      indent +:+ "<" +:+ tg +:+ minidom_attrs at_
      +:+ match default "" tx, ch with
          | "", [] => "/>"
          | t, [] => ">" +:+ t +:+ "</" +:+ tg +:+ ">"
          | _, _ =>
              ">" +:+ String LF (minidom_text (indent +:+ "  ") tx)
              +:+ foldr (λ c acc,
                           minidom_writexml (indent +:+ "  ") c
                           +:+ minidom_text (indent +:+ "  ") (tail c) +:+ acc)
                        "" ch
              +:+ indent +:+ "</" +:+ tg +:+ ">"
          end
      +:+ String LF ""
  end.

(** [minidom.parseString(ET.tostring(root)).toprettyxml(indent='  ')] *)
Definition minidom_toprettyxml (root : Element) : string :=
  "<?xml version=" +:+ DQ +:+ "1.0" +:+ DQ +:+ " ?>"
  +:+ String LF (minidom_writexml "" root).

(** An XML library for the documents of a table: each entry is a document
    with the document that [ET.parse] returns for the text [save_keymap]
    writes for it.  [minidom.parseString] recognises a document of the table
    by the text [ET.tostring] gives for it. *)
Definition observed_library (known : list (Element * Element)) : XmlLibrary :=
  {| ET_parse := λ text,
       snd <$> find (λ p, bool_decide
                            (strip_declaration
                               (strip_blank_lines (minidom_toprettyxml p.1))
                             = text)) known;
     ET_tostring := etree_tostring;
     toprettyxml := λ s,
       match find (λ t, bool_decide (etree_tostring t = s))
                  (known.*1 ++ known.*2) with
       | Some t => minidom_toprettyxml t
       | None => s
       end |}.

(** The white-space text the parser finds between the tags of a written
    document: a line break and the indentation of the next line. *)
Definition indentation (width : nat) : option string :=
  Some (String LF (String.concat "" (replicate width " "))).

(** [windows_paste_synced] as the parser returns it from the text written
    for it. *)
Definition windows_paste_reread : Element :=
  Elem "keymap" [("version", Some "1"); ("name", Some "Fraser")]
    (indentation 2) None
    [Elem "action" [("id", Some "copy")] (indentation 4) (indentation 2)
       [Elem "keyboard-shortcut" [("first-keystroke", Some "ctrl+c")]
          None (indentation 2) []];
     Elem "action" [("id", Some "paste")] (indentation 4) (indentation 0)
       [Elem "keyboard-shortcut" [("first-keystroke", Some "ctrl+v")]
          None (indentation 4) [];
        Elem "keyboard-shortcut" [("first-keystroke", Some "ctrl+shift+v")]
          None (indentation 2) []]].

(** A document with a keystroke that holds a line feed, and what the parser
    returns from the text written for it: the pretty-printer writes the line
    feed as it is and the parser reads a line feed in an attribute value as a
    space. *)
Definition windows_linefeed : Element :=
  keymap [action "x" ["a" +:+ String LF "b"]].

Definition windows_linefeed_reread : Element :=
  Elem "keymap" [("version", Some "1"); ("name", Some "Fraser")]
    (indentation 2) None
    [Elem "action" [("id", Some "x")] (indentation 4) (indentation 0)
       [Elem "keyboard-shortcut" [("first-keystroke", Some "a b")]
          None (indentation 2) []]].

Definition reread_library : XmlLibrary :=
  observed_library [(windows_paste_synced, windows_paste_reread);
                    (windows_linefeed, windows_linefeed_reread)].

(** ** String lemmas *)

Lemma startswith_app s p : startswith s p = true ↔ ∃ r, s = p +:+ r.
Proof.
  revert s. induction p as [|a p IH]; intros s; simpl.
  - split; [intros _; exists s; reflexivity | done].
  - destruct s as [|b s]; simpl.
    + split; [done | intros [r Hr]; discriminate].
    + case_decide as Hab.
      * subst b. rewrite IH. split; intros [r Hr]; exists r.
        -- by rewrite Hr.
        -- by injection Hr.
      * split; [done | intros [r Hr]; injection Hr; congruence].
Qed.

Lemma startswith_cons a s b p :
  startswith (String a s) (String b p) = true ↔ b = a ∧ startswith s p = true.
Proof.
  simpl. destruct (decide (b = a)) as [->|Hne].
  - split; [by intros ? | by intros [_ ?]].
  - split; [done | by intros [? _]].
Qed.

Lemma contains_startswith s sub : startswith s sub = true → contains s sub = true.
Proof. intros H. destruct s; simpl in *; rewrite H; done. Qed.

Lemma contains_cons c s sub : contains (String c s) sub = false → contains s sub = false.
Proof. simpl. by intros [_ ?]%orb_false_iff. Qed.

Lemma contains_app_r p r sub : contains (p +:+ r) sub = false → contains r sub = false.
Proof.
  induction p as [|c p IH]; [done|].
  intros H. apply IH. by apply contains_cons in H.
Qed.

Lemma string_length_app p r : String.length (p +:+ r) = String.length p + String.length r.
Proof. induction p as [|c p IH]; [done|]. simpl. by rewrite <- IH. Qed.

Lemma replace_go_skip old new p r :
  replace_go old new (String.length p) (p +:+ r) = replace_go old new 0 r.
Proof. induction p as [|c p IH]; [done | apply IH]. Qed.

Lemma replace_match old new r :
  old ≠ "" → replace (old +:+ r) old new = new +:+ replace r old new.
Proof.
  intros Hold. destruct old as [|c o]; [done|].
  unfold replace. change (String c o +:+ r) with (String c (o +:+ r)).
  cbn [replace_go].
  assert (startswith (String c (o +:+ r)) (String c o) = true) as ->.
  { apply startswith_app. by exists r. }
  replace (String.length (String c o) - 1) with (String.length o) by (simpl; lia).
  by rewrite replace_go_skip.
Qed.

Lemma replace_nomatch old new c s :
  startswith (String c s) old = false →
  replace (String c s) old new = String c (replace s old new).
Proof. intros H. unfold replace. cbn [replace_go]. by rewrite H. Qed.

(** A prefix that avoids the first character of [new] and shows up in the
    result of a replacement was already a prefix of the input. *)
Lemma startswith_replace old b n p s :
  old ≠ "" → mem_char b p = false →
  startswith (replace s old (String b n)) p = true → startswith s p = true.
Proof.
  intros Hold. revert s. induction p as [|x p IH]; intros s Hmem Hpre; [done|].
  simpl in Hmem. case_decide as Hbx; [done|].
  destruct s as [|c s]; [done|].
  destruct (startswith (String c s) old) eqn:Hst.
  - apply startswith_app in Hst as [r Hr]. rewrite Hr in Hpre.
    rewrite replace_match in Hpre by done.
    change (String b n +:+ replace r old (String b n))
      with (String b (n +:+ replace r old (String b n))) in Hpre.
    apply startswith_cons in Hpre as [-> _]. done.
  - rewrite replace_nomatch in Hpre by done.
    apply startswith_cons in Hpre as [-> Hpre].
    apply startswith_cons. split; [done|]. by apply IH.
Qed.

(** Replacing [old] by [new] and then [new] by [old] gives the input back
    when the input holds no [new] and the first character of [new] does not
    recur inside [new]. *)
Lemma replace_roundtrip old b n s :
  old ≠ "" → mem_char b n = false →
  contains s (String b n) = false →
  replace (replace s old (String b n)) (String b n) old = s.
Proof.
  intros Hold Hmem.
  remember (String.length s) as k eqn:Hk. revert s Hk.
  induction k as [k IH] using lt_wf_ind. intros s -> Hno.
  destruct s as [|c s]; [done|].
  destruct (startswith (String c s) old) eqn:Hst.
  - apply startswith_app in Hst as [r Hr]. rewrite Hr.
    rewrite replace_match by done. rewrite replace_match by done.
    f_equal. eapply IH; [|done|].
    + rewrite Hr, string_length_app.
      destruct old; [done | simpl; lia].
    + rewrite Hr in Hno. by apply contains_app_r in Hno.
  - rewrite replace_nomatch by done.
    rewrite replace_nomatch.
    + f_equal. eapply IH; [|done|].
      * simpl. lia.
      * by apply contains_cons in Hno.
    + destruct (startswith (String c (replace s old (String b n))) (String b n)) eqn:Hpre; [|done].
      apply startswith_cons in Hpre as [-> Hpre].
      apply startswith_replace in Hpre; [|done..].
      assert (startswith (String c s) (String c n) = true) as Hs
        by (by apply startswith_cons).
      apply contains_startswith in Hs. congruence.
Qed.

(** C4. Round-trip translation law: a keystroke string with no occurrence of
    the Mac token [meta] is returned unchanged by translating it toward the
    Mac convention and back toward the Windows convention. *)
Theorem convert_shortcut_roundtrip (s : string) :
  contains s "meta" = false →
  convert_shortcut (convert_shortcut s true) false = s.
Proof.
  intros H. unfold convert_shortcut. by apply replace_roundtrip.
Qed.

(** ** Elements *)

Lemma set_children_id e : set_children e (children e) = e.
Proof. by destruct e. Qed.

Lemma set_children_twice e l1 l2 :
  set_children (set_children e l1) l2 = set_children e l2.
Proof. done. Qed.

Lemma akey_set_children e l : akey (set_children e l) = akey e.
Proof. done. Qed.

Lemma akey_new_action k : akey (new_action k) = Some k.
Proof. done. Qed.

Lemma akey_Some a k : akey a = Some k ↔ tag a = "action" ∧ get a "id" = k.
Proof. unfold akey. case_decide; naive_solver. Qed.

Lemma findall_new_shortcuts l ks :
  filter (λ c, tag c = "keyboard-shortcut") (l ++ (new_shortcut <$> ks))
  = filter (λ c, tag c = "keyboard-shortcut") l ++ (new_shortcut <$> ks).
Proof.
  rewrite filter_app. f_equal.
  induction ks as [|k ks IH]; [done|].
  rewrite fmap_cons, filter_cons_True by done. by rewrite IH.
Qed.

(** ** [add_shortcuts] *)

Lemma add_shortcuts_eq action shortcuts :
  add_shortcuts action shortcuts
  = set_children action
      (children action
       ++ (new_shortcut <$> filter (λ k, k ∉ shortcut_set action) (iter shortcuts))).
Proof.
  unfold add_shortcuts.
  generalize (shortcut_set action) as existing. intros existing.
  generalize (iter shortcuts) as l. intros l. revert action.
  induction l as [|k l IH]; intros action; simpl.
  - rewrite app_nil_r. by destruct action.
  - rewrite IH. case_decide as Hk.
    + rewrite filter_cons_False by naive_solver. done.
    + rewrite filter_cons_True by done. unfold SubElement.
      rewrite set_children_twice. simpl. by rewrite <- app_assoc.
Qed.

Lemma add_shortcuts_tag a X : tag (add_shortcuts a X) = tag a.
Proof. by rewrite add_shortcuts_eq. Qed.

Lemma add_shortcuts_attrib a X : attrib (add_shortcuts a X) = attrib a.
Proof. by rewrite add_shortcuts_eq. Qed.

Lemma add_shortcuts_akey a X : akey (add_shortcuts a X) = akey a.
Proof. by rewrite add_shortcuts_eq. Qed.

Lemma add_shortcuts_get a X key : get (add_shortcuts a X) key = get a key.
Proof. by rewrite add_shortcuts_eq. Qed.

Lemma add_shortcuts_values a X :
  shortcut_values (add_shortcuts a X)
  = shortcut_values a ++ filter (λ k, k ∉ shortcut_set a) (iter X).
Proof.
  rewrite add_shortcuts_eq. unfold shortcut_values, findall. simpl.
  rewrite findall_new_shortcuts, fmap_app. f_equal.
  rewrite <- list_fmap_compose. apply list_fmap_id.
Qed.

Lemma elem_of_iter x X : x ∈ iter X ↔ x ∈ X.
Proof. by rewrite iter_perm, elem_of_elements. Qed.

Lemma NoDup_iter X : NoDup (iter X).
Proof. rewrite iter_perm. apply NoDup_elements. Qed.

Lemma add_shortcuts_set a X :
  shortcut_set (add_shortcuts a X) = shortcut_set a ∪ X.
Proof.
  unfold shortcut_set. rewrite add_shortcuts_values, list_to_set_app_L.
  apply set_eq. intros x.
  rewrite !elem_of_union, !elem_of_list_to_set, list_elem_of_filter, elem_of_iter.
  unfold shortcut_set. rewrite elem_of_list_to_set.
  destruct (decide (x ∈ shortcut_values a)); naive_solver.
Qed.

(** ** The action dictionary *)

Lemma index_actions_snoc i l a d :
  index_actions i (l ++ [a]) d
  = if decide (tag a = "action")
    then <[get a "id" := i + length l]> (index_actions i l d)
    else index_actions i l d.
Proof.
  revert i d. induction l as [|b l IH]; intros i d; simpl.
  - by rewrite Nat.add_0_r.
  - rewrite IH. by replace (S i + length l) with (i + S (length l)) by lia.
Qed.

Lemma index_actions_dom l k :
  k ∈ dom (index_actions 0 l ∅) ↔ ∃ a, a ∈ l ∧ akey a = Some k.
Proof.
  induction l as [|a l IH] using rev_ind.
  - simpl. rewrite dom_empty_L. split; [set_solver|].
    intros (a & Ha & _). by apply elem_of_nil in Ha.
  - rewrite index_actions_snoc. case_decide as Hact.
    + rewrite dom_insert_L, elem_of_union, elem_of_singleton, IH.
      split.
      * intros [->|(b & Hb & Hk)].
        -- exists a. split; [set_solver|]. by apply akey_Some.
        -- exists b. split; [set_solver | done].
      * intros (b & Hb & Hk). apply elem_of_app in Hb as [Hb|Hb].
        -- right. eauto.
        -- apply list_elem_of_singleton in Hb as ->.
           apply akey_Some in Hk as [_ Hk]. by left.
    + rewrite IH. split.
      * intros (b & Hb & Hk). exists b. split; [set_solver | done].
      * intros (b & Hb & Hk). apply elem_of_app in Hb as [Hb|Hb]; [eauto|].
        apply list_elem_of_singleton in Hb as ->.
        apply akey_Some in Hk as [? _]. done.
Qed.

Lemma is_last_action_snoc_eq l a k :
  akey a = Some k → ∀ i, is_last_action (l ++ [a]) k i ↔ i = length l.
Proof.
  intros Hk i. split.
  - intros [(b & Hb & _) Hlast].
    apply lookup_lt_Some in Hb as Hlt. rewrite length_app in Hlt. simpl in Hlt.
    destruct (decide (i = length l)) as [|Hne]; [done|].
    exfalso. apply (Hlast (length l) a); [lia | | done].
    by rewrite list_lookup_middle.
  - intros ->. split.
    + exists a. by rewrite list_lookup_middle.
    + intros j b Hj Hb. apply lookup_lt_Some in Hb.
      rewrite length_app in Hb. simpl in Hb. lia.
Qed.

Lemma is_last_action_snoc_ne l a k :
  akey a ≠ Some k → ∀ i, is_last_action (l ++ [a]) k i ↔ is_last_action l k i.
Proof.
  intros Hk i. split.
  - intros [(b & Hb & Hbk) Hlast].
    assert (i < length l) as Hlt.
    { apply lookup_lt_Some in Hb as Hlt. rewrite length_app in Hlt. simpl in Hlt.
      destruct (decide (i = length l)) as [->|]; [|lia].
      rewrite list_lookup_middle in Hb by done. congruence. }
    split.
    + exists b. by rewrite lookup_app_l in Hb.
    + intros j c Hj Hc. apply (Hlast j c Hj).
      rewrite lookup_app_l; [done|]. by apply lookup_lt_Some in Hc.
  - intros [(b & Hb & Hbk) Hlast]. split.
    + exists b. split; [|done]. by apply lookup_app_l_Some.
    + intros j c Hj Hc. apply lookup_app_Some in Hc as [Hc|[_ Hc]].
      * by apply (Hlast j c).
      * apply list_lookup_singleton_Some in Hc as [_ <-]. done.
Qed.

Lemma index_actions_is_last l k i :
  index_actions 0 l ∅ !! k = Some i ↔ is_last_action l k i.
Proof.
  revert i. induction l as [|a l IH] using rev_ind; intros i.
  - simpl. rewrite lookup_empty. split; [done|].
    intros [(a & Ha & _) _]. done.
  - rewrite index_actions_snoc. destruct (decide (akey a = Some k)) as [Hk|Hk].
    + rewrite is_last_action_snoc_eq by done.
      apply akey_Some in Hk as [Hact <-].
      rewrite decide_True by done. rewrite lookup_insert_eq. simpl. naive_solver.
    + rewrite is_last_action_snoc_ne by done. rewrite <- IH.
      case_decide as Hact; [|done].
      rewrite lookup_insert_ne; [done|].
      intros Heq. apply Hk. by apply akey_Some.
Qed.

Lemma action_dict_is_last root k i :
  action_dict root !! k = Some i ↔ is_last_action (children root) k i.
Proof. apply index_actions_is_last. Qed.

Lemma action_dict_None root k :
  action_dict root !! k = None ↔ ∀ a, a ∈ children root → akey a ≠ Some k.
Proof.
  rewrite <- not_elem_of_dom. unfold action_dict. rewrite index_actions_dom.
  naive_solver.
Qed.

Lemma is_last_action_find l k i a :
  l !! i = Some a → is_last_action l k i → find_action l k = Some a.
Proof.
  unfold find_action. revert i. induction l as [|b l IH] using rev_ind; intros i Hi Hlast.
  - done.
  - rewrite filter_app. destruct (decide (akey b = Some k)) as [Hk|Hk].
    + rewrite (filter_cons_True _ b) by done. rewrite filter_nil, last_snoc.
      apply is_last_action_snoc_eq in Hlast as ->; [|done].
      rewrite list_lookup_middle in Hi by done. congruence.
    + rewrite (filter_cons_False _ b) by done. rewrite filter_nil, app_nil_r.
      apply is_last_action_snoc_ne in Hlast; [|done].
      apply (IH i); [|done].
      destruct Hlast as [(c & Hc & _) _].
      rewrite lookup_app_l in Hi; [done|]. by apply lookup_lt_Some in Hc.
Qed.

Lemma find_action_None l k :
  (∀ a, a ∈ l → akey a ≠ Some k) → find_action l k = None.
Proof.
  intros H. unfold find_action. apply last_None.
  induction l as [|a l IH]; [done|].
  rewrite filter_cons_False; [|apply H; set_solver].
  apply IH. intros b Hb. apply H. set_solver.
Qed.

Lemma lookup_action_find root k :
  lookup_action root k = find_action (children root) k.
Proof.
  unfold lookup_action. destruct (action_dict root !! k) as [i|] eqn:Hd; simpl.
  - apply action_dict_is_last in Hd as Hlast.
    destruct Hlast as [(a & Ha & _) _]. rewrite Ha. symmetry.
    eapply is_last_action_find; [done|]. by apply action_dict_is_last.
  - symmetry. apply find_action_None. by apply action_dict_None.
Qed.

Lemma action_ids_spec root k :
  k ∈ action_ids root ↔ ∃ a, a ∈ children root ∧ akey a = Some k.
Proof. apply index_actions_dom. Qed.

(** ** The loop: its state after a set of ids has been handled *)

Lemma merged_children_nil root target :
  merged_children root target [] = children root.
Proof.
  unfold merged_children. rewrite filter_nil, fmap_nil, app_nil_r.
  apply list_eq. intros i. rewrite list_lookup_imap.
  destruct (children root !! i) as [a|]; [simpl|done].
  rewrite decide_False; [done|]. intros [_ H]. by apply elem_of_nil in H.
Qed.

Lemma merged_nil w m : merged w m [] = (w, m).
Proof. unfold merged. by rewrite !merged_children_nil, !set_children_id. Qed.

Lemma get_or_create_merged root target done k :
  k ∉ done →
  ∃ root' i,
    get_or_create (action_dict root)
      (set_children root (merged_children root target done)) k = (root', i)
    ∧ shortcut_set (deref root' i) = keystrokes_of root k
    ∧ update root' i (λ a, add_shortcuts a (target k))
      = set_children root (merged_children root target (done ++ [k])).
Proof.
  intros Hk. unfold get_or_create, keystrokes_of, lookup_action.
  destruct (action_dict root !! k) as [i|] eqn:Hd; simpl.
  - eexists _, i. split; [done|].
    apply action_dict_is_last in Hd as Hlast.
    destruct Hlast as [(a & Ha & Hak) _].
    apply akey_Some in Hak as [_ Hid].
    assert (i < length (children root)) as Hlt by (by apply lookup_lt_Some in Ha).
    rewrite Ha. simpl. split.
    + unfold deref. simpl. f_equal. apply list_lookup_total_correct.
      unfold merged_children. rewrite lookup_app_l by (by rewrite length_imap).
      rewrite list_lookup_imap, Ha. simpl.
      rewrite decide_False; [done|]. rewrite Hid. tauto.
    + unfold update. simpl. unfold set_children. simpl. f_equal.
      unfold merged_children.
      rewrite alter_app_l by (by rewrite length_imap).
      rewrite filter_app, fmap_app.
      rewrite (filter_cons_False _ k) by congruence.
      rewrite filter_nil, fmap_nil, app_nil_r. f_equal.
      apply list_eq. intros j.
      rewrite list_lookup_alter, !list_lookup_imap.
      destruct (decide (i = j)) as [<-|Hij].
      * rewrite Ha. simpl. f_equal.
        rewrite decide_False by (rewrite Hid; tauto).
        rewrite decide_True; [by rewrite Hid|].
        rewrite Hid. split; [done | set_solver].
      * destruct (children root !! j) as [b|]; [simpl|done]. f_equal.
        apply decide_ext. rewrite elem_of_app, list_elem_of_singleton.
        split; [tauto|]. intros [Hb [?| Hbk]]; [done|].
        rewrite Hbk in Hb. congruence.
  - eexists _, _. split; [done|]. split.
    + unfold deref, SubElement. simpl.
      rewrite list_lookup_total_middle by done. done.
    + unfold update, SubElement. simpl. unfold set_children. simpl. f_equal.
      rewrite alter_app_r_alt by done. rewrite Nat.sub_diag. simpl.
      unfold merged_children.
      rewrite filter_app, fmap_app, (filter_cons_True _ k) by done.
      rewrite filter_nil. simpl. rewrite app_assoc. f_equal. f_equal.
      apply imap_ext. intros j b Hb. simpl.
      apply decide_ext. rewrite elem_of_app, list_elem_of_singleton.
      split; [tauto|]. intros [Hbj [?| Hbk]]; [done|].
      rewrite Hbk in Hbj. congruence.
Qed.

Lemma sync_action_merged w m done k :
  k ∉ done →
  sync_action (action_dict w) (action_dict m) (merged w m done) k
  = if decide (bad_id w m k) then Raise AttributeError
    else Ok (merged w m (done ++ [k])).
Proof.
  intros Hk. unfold sync_action, merged. cbn [fst snd].
  destruct (get_or_create_merged w (all_windows w m) done k Hk)
    as (w' & wi & -> & Hws & Hwu).
  destruct (get_or_create_merged m (all_mac w m) done k Hk)
    as (m' & mi & -> & Hms & Hmu).
  rewrite Hws, Hms. unfold convert_all.
  destruct (decide (bad_id w m k)) as [Hbad|Hbad]; unfold bad_id in Hbad;
    destruct (decide (None ∈ keystrokes_of m k)) as [Hm|Hm]; simpl; try tauto;
    destruct (decide (None ∈ keystrokes_of w k)) as [Hw|Hw]; simpl; try tauto.
  f_equal. f_equal; [apply Hwu | apply Hmu].
Qed.

Lemma for_each_merged w m todo done :
  NoDup (done ++ todo) →
  for_each (sync_action (action_dict w) (action_dict m)) (merged w m done) todo
  = if decide (Exists (bad_id w m) todo) then Raise AttributeError
    else Ok (merged w m (done ++ todo)).
Proof.
  revert done. induction todo as [|k todo IH]; intros done Hnd.
  - cbn [for_each]. rewrite app_nil_r.
    destruct (decide (Exists (bad_id w m) [])) as [H|H]; [|done].
    by apply Exists_nil in H.
  - assert (k ∉ done) as Hk.
    { apply NoDup_app in Hnd as (_ & Hdisj & _). intros Hin.
      apply (Hdisj k Hin). set_solver. }
    cbn [for_each]. rewrite sync_action_merged by done.
    destruct (decide (bad_id w m k)) as [Hbad|Hbad]; cbn [mbind result_bind].
    + rewrite decide_True; [done|]. by apply Exists_cons_hd.
    + rewrite IH by (by rewrite <- app_assoc).
      rewrite <- app_assoc. cbn [app].
      destruct (decide (Exists (bad_id w m) todo)) as [H|H].
      * rewrite decide_True; [done|]. by apply Exists_cons_tl.
      * rewrite decide_False; [done|]. rewrite Exists_cons. tauto.
Qed.

Lemma merge_keymaps_eq w m :
  merge_keymaps w m
  = if decide (Exists (bad_id w m) (iter (action_ids w ∪ action_ids m)))
    then Raise AttributeError
    else Ok (merged w m (iter (action_ids w ∪ action_ids m))).
Proof.
  unfold merge_keymaps. rewrite <- (merged_nil w m) at 1.
  apply (for_each_merged w m _ []). simpl. apply NoDup_iter.
Qed.

Lemma merged_children_akey root target (done : list (option string)) i b :
  imap (λ i a,
          if decide (action_dict root !! get a "id" = Some i ∧ get a "id" ∈ done)
          then add_shortcuts a (target (get a "id")) else a)
       (children root) !! i = Some b →
  ∃ a, children root !! i = Some a ∧ akey b = akey a
       ∧ (b = a ∨ b = add_shortcuts a (target (get a "id"))).
Proof.
  rewrite list_lookup_imap. destruct (children root !! i) as [a|]; [simpl|done].
  intros [= <-]. exists a. split; [done|].
  case_decide; [|by auto]. rewrite add_shortcuts_akey. auto.
Qed.

(** The action the merged document holds for a handled id: the original (or
    a new, empty one) extended with the target set. *)
Lemma find_action_merged root target done k :
  NoDup done → k ∈ done →
  find_action (merged_children root target done) k
  = Some (add_shortcuts (default (new_action k) (lookup_action root k)) (target k)).
Proof.
  intros Hnd Hk. unfold lookup_action, merged_children.
  destruct (action_dict root !! k) as [i|] eqn:Hd; simpl.
  - apply action_dict_is_last in Hd as Hlast.
    destruct Hlast as [(a & Ha & Hak) Hlater]. rewrite Ha. simpl.
    apply akey_Some in Hak as Hak'. destruct Hak' as [_ Hid].
    assert (i < length (children root)) as Hlt by (by apply lookup_lt_Some in Ha).
    apply (is_last_action_find _ _ i).
    + rewrite lookup_app_l by (by rewrite length_imap).
      rewrite list_lookup_imap, Ha. simpl.
      rewrite decide_True by (by rewrite Hid). by rewrite Hid.
    + split.
      * eexists. split.
        -- rewrite lookup_app_l by (by rewrite length_imap).
           rewrite list_lookup_imap, Ha. done.
        -- simpl. case_decide; [by rewrite add_shortcuts_akey | done].
      * intros j b Hj Hb. apply lookup_app_Some in Hb as [Hb|[_ Hb]].
        -- apply merged_children_akey in Hb as (c & Hc & -> & _).
           by apply (Hlater j).
        -- apply list_lookup_fmap_Some in Hb as (k' & -> & Hk').
           apply list_elem_of_lookup_2, list_elem_of_filter in Hk' as [Hnone _].
           rewrite add_shortcuts_akey, akey_new_action. congruence.
  - assert (k ∈ filter (λ k, action_dict root !! k = None) done) as Hin
      by (by apply list_elem_of_filter).
    apply list_elem_of_lookup_1 in Hin as [p Hp].
    apply (is_last_action_find _ _ (length (children root) + p)).
    + rewrite lookup_app_r by (rewrite length_imap; lia).
      rewrite length_imap. replace (length (children root) + p - length (children root)) with p by lia.
      by rewrite list_lookup_fmap, Hp.
    + assert (∀ j b,
        ((λ k, add_shortcuts (new_action k) (target k))
           <$> filter (λ k, action_dict root !! k = None) done) !! j = Some b →
        ∃ k', filter (λ k, action_dict root !! k = None) done !! j = Some k'
              ∧ akey b = Some k') as Hnew.
      { intros j b Hb. apply list_lookup_fmap_Some in Hb as (k' & -> & Hk').
        exists k'. split; [done|]. by rewrite add_shortcuts_akey. }
      split.
      * eexists. split.
        -- rewrite lookup_app_r by (rewrite length_imap; lia).
           rewrite length_imap.
           replace (length (children root) + p - length (children root)) with p by lia.
           by rewrite list_lookup_fmap, Hp.
        -- by rewrite add_shortcuts_akey.
      * intros j b Hj Hb.
        rewrite lookup_app_r in Hb by (rewrite length_imap; lia).
        rewrite length_imap in Hb.
        apply Hnew in Hb as (k' & Hk' & ->). intros [= ->].
        assert (NoDup (filter (λ k, action_dict root !! k = None) done)) as Hnd'
          by (by apply NoDup_filter).
        pose proof (NoDup_lookup _ _ _ _ Hnd' Hk' Hp). lia.
Qed.

Lemma shortcut_set_default root k :
  shortcut_set (default (new_action k) (lookup_action root k)) = keystrokes_of root k.
Proof. unfold keystrokes_of. by destruct (lookup_action root k). Qed.

(** ** Sorting *)

Lemma insert_by_id_perm a l : insert_by_id a l ≡ₚ a :: l.
Proof.
  induction l as [|b l IH]; simpl; [done|].
  destruct (id_le a b); [done|]. rewrite IH. apply Permutation_swap.
Qed.

Lemma sort_by_id_perm l : sort_by_id l ≡ₚ l.
Proof.
  induction l as [|a l IH]; simpl; [done|].
  by rewrite insert_by_id_perm, IH.
Qed.

(** Stability: elements that the order does not separate keep their relative
    position. *)
Lemma insert_by_id_filter (P : Element → Prop) `{∀ x, Decision (P x)} a l :
  (∀ x y, P x → P y → id_le x y = true) →
  filter P (insert_by_id a l) = filter P (a :: l).
Proof.
  intros HP. induction l as [|b l IH]; simpl; [done|].
  destruct (id_le a b) eqn:Hab; [done|].
  rewrite (filter_cons _ b (insert_by_id a l)), IH.
  rewrite !filter_cons.
  destruct (decide (P a)) as [Ha|Ha], (decide (P b)) as [Hb|Hb]; try done.
  rewrite HP in Hab by done. done.
Qed.

Lemma sort_by_id_filter (P : Element → Prop) `{∀ x, Decision (P x)} l :
  (∀ x y, P x → P y → id_le x y = true) →
  filter P (sort_by_id l) = filter P l.
Proof.
  intros HP. induction l as [|a l IH]; simpl; [done|].
  rewrite insert_by_id_filter by done. rewrite !filter_cons, IH. done.
Qed.

Lemma id_le_same_id x y : get x "id" = get y "id" → id_le x y = true.
Proof.
  intros Heq. unfold id_le. rewrite Heq. destruct (get y "id") as [s|]; [|done].
  pose proof (reflexivity (R:=String.le) s) as Hs. by apply Is_true_true in Hs.
Qed.

Lemma sort_by_id_stable k l :
  filter (λ a, get a "id" = k) (sort_by_id l) = filter (λ a, get a "id" = k) l.
Proof.
  apply sort_by_id_filter. intros x y Hx Hy. apply id_le_same_id. congruence.
Qed.

Lemma find_action_sort l k : find_action (sort_by_id l) k = find_action l k.
Proof.
  unfold find_action. f_equal. apply sort_by_id_filter.
  intros x y [_ Hx]%akey_Some [_ Hy]%akey_Some. apply id_le_same_id. congruence.
Qed.

Lemma id_leq_le a b : id_leq a b → id_le a b = true.
Proof.
  intros (x & y & Hx & Hy & Hxy). unfold id_le. rewrite Hx, Hy.
  by apply Is_true_true.
Qed.

Lemma id_leq_trans a b c : id_leq a b → id_leq b c → id_leq a c.
Proof.
  intros (x & y & Hx & Hy & Hxy) (y' & z & Hy' & Hz & Hyz).
  exists x, z. split_and!; [done..|].
  assert (y' = y) as -> by congruence. by etrans.
Qed.

Lemma id_le_false a b :
  is_Some (get a "id") → is_Some (get b "id") → id_le a b = false → id_leq b a.
Proof.
  intros [x Hx] [y Hy]. unfold id_le. rewrite Hx, Hy. intros Hf.
  exists y, x. split_and!; [done..|].
  destruct (total String.le x y) as [Hxy|Hyx]; [|done].
  apply Is_true_true in Hxy. unfold String.le in *. congruence.
Qed.

Lemma id_le_true a b :
  is_Some (get a "id") → is_Some (get b "id") → id_le a b = true → id_leq a b.
Proof.
  intros [x Hx] [y Hy]. unfold id_le. rewrite Hx, Hy. intros Ht.
  exists x, y. split_and!; [done..|]. by apply Is_true_true.
Qed.

Lemma insert_by_id_sorted a l :
  is_Some (get a "id") → Forall (λ b, is_Some (get b "id")) l →
  StronglySorted id_leq l → StronglySorted id_leq (insert_by_id a l).
Proof.
  intros Ha Hl Hs. induction Hs as [|b l Hs IH Hb]; simpl.
  - by repeat constructor.
  - apply Forall_cons in Hl as [Hbid Hl].
    destruct (id_le a b) eqn:Hab.
    + apply id_le_true in Hab; [|done..].
      constructor; [by constructor|]. constructor; [done|].
      eapply Forall_impl; [exact Hb|]. intros c Hc. by eapply id_leq_trans.
    + apply id_le_false in Hab; [|done..].
      constructor; [by apply IH|].
      rewrite insert_by_id_perm. by constructor.
Qed.

Lemma sort_by_id_sorted l :
  Forall (λ b, is_Some (get b "id")) l → StronglySorted id_leq (sort_by_id l).
Proof.
  induction 1 as [|a l Ha Hl IH]; simpl; [constructor|].
  apply insert_by_id_sorted; [done | by rewrite sort_by_id_perm | done].
Qed.

(** Sorting a list that is already in ascending order changes nothing. *)
Lemma sort_by_id_fixed l : StronglySorted id_leq l → sort_by_id l = l.
Proof.
  induction 1 as [|a l Hs IH Ha]; simpl; [done|].
  rewrite IH. destruct l as [|b l]; [done|]. simpl.
  apply Forall_cons in Ha as [Hab _]. by rewrite id_leq_le.
Qed.

(** ** [save_keymap] and [sync_keymaps]: what a successful run went through *)

Lemma sorted_by_id_Ok l l' : sorted_by_id l = Ok l' → l' = sort_by_id l.
Proof. unfold sorted_by_id. case_decide; naive_solver. Qed.

Lemma reorder_actions_Ok root root' :
  reorder_actions root = Ok root' →
  root' = set_children root (sort_by_id (findall root "action")).
Proof.
  unfold reorder_actions.
  destruct (sorted_by_id (findall root "action")) as [l|] eqn:Hs; [simpl|done].
  apply sorted_by_id_Ok in Hs as ->. by intros [= <-].
Qed.

Lemma save_keymap_Ok root path fs root' fs' :
  save_keymap root path fs = Ok (root', fs') →
  reorder_actions root = Ok root' ∧ serializable root' = true
  ∧ write_file fs path (render root') = Ok fs'.
Proof.
  unfold save_keymap.
  destruct (reorder_actions root) as [r|]; [simpl|done].
  destruct (serializable r) eqn:Hser; [|done].
  destruct (write_file fs path (render r)) as [fs1|] eqn:Hwr; [simpl|done].
  by intros [= <- <-].
Qed.

Lemma sync_keymaps_Ok wf mf fs w' m' fs' :
  sync_keymaps wf mf fs = (Ok (w', m'), fs') →
  ∃ w m w1 m1 fs1,
    load_keymap fs wf = Ok w ∧ load_keymap fs mf = Ok m
    ∧ merge_keymaps w m = Ok (w1, m1)
    ∧ save_keymap w1 wf fs = Ok (w', fs1)
    ∧ save_keymap m1 mf fs1 = Ok (m', fs').
Proof.
  unfold sync_keymaps.
  destruct (load_keymap fs wf) as [w|] eqn:Hw; [|done].
  destruct (load_keymap fs mf) as [m|] eqn:Hm; [|done].
  destruct (merge_keymaps w m) as [[w1 m1]|] eqn:Hmerge; [|done].
  destruct (save_keymap w1 wf fs) as [[w2 fs1]|] eqn:Hsw; [|done].
  destruct (save_keymap m1 mf fs1) as [[m2 fs2]|] eqn:Hsm; [|done].
  intros [= <- <- <-]. by exists w, m, w1, m1, fs1.
Qed.

(** The documents a successful run leaves: the merged documents with their
    actions sorted. *)
Lemma sync_keymaps_documents wf mf fs w m w' m' fs' :
  load_keymap fs wf = Ok w → load_keymap fs mf = Ok m →
  sync_keymaps wf mf fs = (Ok (w', m'), fs') →
  let ids := iter (action_ids w ∪ action_ids m) in
  ¬ Exists (bad_id w m) ids
  ∧ children w'
    = sort_by_id (filter (λ c, tag c = "action")
                    (merged_children w (all_windows w m) ids))
  ∧ children m'
    = sort_by_id (filter (λ c, tag c = "action")
                    (merged_children m (all_mac w m) ids)).
Proof.
  intros Hw Hm Hrun.
  apply sync_keymaps_Ok in Hrun as (w0 & m0 & w1 & m1 & fs1 & Hw0 & Hm0 & Hmerge & Hsw & Hsm).
  assert (w0 = w) as -> by congruence. assert (m0 = m) as -> by congruence.
  rewrite merge_keymaps_eq in Hmerge.
  case_decide as Hbad; [done|]. injection Hmerge as <- <-.
  apply save_keymap_Ok in Hsw as (Hrw & _ & _).
  apply save_keymap_Ok in Hsm as (Hrm & _ & _).
  apply reorder_actions_Ok in Hrw as ->. apply reorder_actions_Ok in Hrm as ->.
  done.
Qed.

Lemma find_action_filter_action l k :
  find_action (filter (λ c, tag c = "action") l) k = find_action l k.
Proof.
  unfold find_action. f_equal. rewrite list_filter_filter.
  apply list_filter_iff. intros a. rewrite akey_Some. naive_solver.
Qed.

Lemma keystrokes_of_children root l k :
  children root = l →
  keystrokes_of root k = from_option shortcut_set ∅ (find_action l k).
Proof. intros <-. unfold keystrokes_of. by rewrite lookup_action_find. Qed.

Lemma action_ids_children root l :
  children root = l →
  ∀ k, k ∈ action_ids root ↔ Some k ∈ akey <$> l.
Proof.
  intros <- k. rewrite action_ids_spec, list_elem_of_fmap. naive_solver.
Qed.

Lemma merged_children_keys root target done k :
  Some k ∈ akey <$> merged_children root target done
  ↔ k ∈ action_ids root ∨ (k ∈ done ∧ k ∉ action_ids root).
Proof.
  unfold merged_children. rewrite fmap_app, elem_of_app.
  assert (∀ k, action_dict root !! k = None ↔ k ∉ action_ids root) as Hnone.
  { intros k'. unfold action_ids. by rewrite not_elem_of_dom. }
  apply Morphisms_Prop.or_iff_morphism.
  - rewrite action_ids_spec, list_elem_of_fmap. split.
    + intros (b & Hb & Hin). apply list_elem_of_lookup_1 in Hin as [i Hi].
      apply merged_children_akey in Hi as (a & Ha & Hab & _).
      exists a. split; [by eapply list_elem_of_lookup_2 | congruence].
    + intros (a & Ha & Hka). apply list_elem_of_lookup_1 in Ha as [i Hi].
      eexists. split; [|apply list_elem_of_lookup_2 with i;
                         by rewrite list_lookup_imap, Hi].
      simpl. case_decide; [by rewrite add_shortcuts_akey | done].
  - rewrite <- list_fmap_compose, list_elem_of_fmap. split.
    + intros (k' & Hk' & Hin). simpl in Hk'.
      rewrite add_shortcuts_akey, akey_new_action in Hk'. injection Hk' as ->.
      apply list_elem_of_filter in Hin as [Hn Hin]. split; [done|]. by apply Hnone.
    + intros [Hin Hn]. exists k. split.
      * simpl. by rewrite add_shortcuts_akey.
      * apply list_elem_of_filter. split; [by apply Hnone | done].
Qed.

Lemma akey_sort_filter l k :
  Some k ∈ akey <$> sort_by_id (filter (λ c, tag c = "action") l)
  ↔ Some k ∈ akey <$> l.
Proof.
  rewrite sort_by_id_perm, !list_elem_of_fmap.
  split.
  - intros (a & Ha & Hin). apply list_elem_of_filter in Hin as [_ Hin]. eauto.
  - intros (a & Ha & Hin). exists a. split; [done|].
    apply list_elem_of_filter. split; [|done].
    symmetry in Ha. by apply akey_Some in Ha as [? _].
Qed.

Lemma find_action_saved root target ids k :
  NoDup ids → k ∈ ids →
  find_action
    (sort_by_id (filter (λ c, tag c = "action") (merged_children root target ids))) k
  = Some (add_shortcuts (default (new_action k) (lookup_action root k)) (target k)).
Proof.
  intros Hnd Hk.
  by rewrite find_action_sort, find_action_filter_action, find_action_merged.
Qed.

Lemma keystrokes_of_saved root root' target ids k :
  NoDup ids → k ∈ ids →
  children root'
  = sort_by_id (filter (λ c, tag c = "action") (merged_children root target ids)) →
  keystrokes_of root' k = keystrokes_of root k ∪ target k.
Proof.
  intros Hnd Hk Hch.
  rewrite (keystrokes_of_children root' _ k Hch).
  rewrite find_action_saved by done. simpl.
  by rewrite add_shortcuts_set, shortcut_set_default.
Qed.

Lemma action_ids_saved root root' target ids :
  children root'
  = sort_by_id (filter (λ c, tag c = "action") (merged_children root target ids)) →
  action_ids root' = action_ids root ∪ list_to_set ids.
Proof.
  intros Hch. apply set_eq. intros k.
  rewrite (action_ids_children root' _ Hch), akey_sort_filter, merged_children_keys.
  rewrite elem_of_union, elem_of_list_to_set.
  destruct (decide (k ∈ action_ids root)); naive_solver.
Qed.

Lemma list_to_set_iter (X : gset (option string)) : list_to_set (iter X) = X.
Proof.
  apply set_eq. intros k. by rewrite elem_of_list_to_set, elem_of_iter.
Qed.

(** C1. After a successful run on the Windows document [w] and the Mac
    document [m], for every action id of either document the keystroke set of
    that action (the one the script's dictionary holds for the id) in the
    Windows document is its original set together with the
    Mac originals translated toward Windows ([meta] replaced by [ctrl]), and
    the keystroke set in the Mac document is its original set together with
    the Windows originals translated toward Mac ([ctrl] replaced by [meta]). *)
Theorem sync_keymaps_keystroke_union wf mf fs w m w' m' fs' :
  load_keymap fs wf = Ok w → load_keymap fs mf = Ok m →
  sync_keymaps wf mf fs = (Ok (w', m'), fs') →
  ∀ k, k ∈ action_ids w ∪ action_ids m →
    keystrokes_of w' k
    = keystrokes_of w k ∪ set_map (convert_opt false) (keystrokes_of m k)
    ∧ keystrokes_of m' k
      = keystrokes_of m k ∪ set_map (convert_opt true) (keystrokes_of w k).
Proof.
  intros Hw Hm Hrun k Hk.
  destruct (sync_keymaps_documents _ _ _ _ _ _ _ _ Hw Hm Hrun) as (_ & Hcw & Hcm).
  apply elem_of_iter in Hk. pose proof (NoDup_iter (action_ids w ∪ action_ids m)) as Hnd.
  rewrite (keystrokes_of_saved _ _ _ _ k Hnd Hk Hcw).
  rewrite (keystrokes_of_saved _ _ _ _ k Hnd Hk Hcm).
  unfold all_windows, all_mac. split; set_solver.
Qed.

(** C2. After a successful run both documents hold the same action ids, the
    union of the ids of the two input documents; an id that one document
    lacked is held there by a new action whose children are only the shortcuts
    the merge created. *)
Theorem sync_keymaps_action_ids wf mf fs w m w' m' fs' :
  load_keymap fs wf = Ok w → load_keymap fs mf = Ok m →
  sync_keymaps wf mf fs = (Ok (w', m'), fs') →
  action_ids w' = action_ids m'
  ∧ action_ids w' = action_ids w ∪ action_ids m
  ∧ (∀ k, k ∈ action_ids m → k ∉ action_ids w →
       ∃ ks, lookup_action w' k
             = Some (Elem "action" [("id", k)] None None (new_shortcut <$> ks)))
  ∧ (∀ k, k ∈ action_ids w → k ∉ action_ids m →
       ∃ ks, lookup_action m' k
             = Some (Elem "action" [("id", k)] None None (new_shortcut <$> ks))).
Proof.
  intros Hw Hm Hrun.
  destruct (sync_keymaps_documents _ _ _ _ _ _ _ _ Hw Hm Hrun) as (_ & Hcw & Hcm).
  pose proof (NoDup_iter (action_ids w ∪ action_ids m)) as Hnd.
  apply action_ids_saved in Hcw as Hiw. apply action_ids_saved in Hcm as Him.
  rewrite list_to_set_iter in Hiw, Him.
  assert (∀ root root' target k,
    children root'
    = sort_by_id (filter (λ c, tag c = "action")
        (merged_children root target (iter (action_ids w ∪ action_ids m)))) →
    k ∈ action_ids w ∪ action_ids m → k ∉ action_ids root →
    ∃ ks, lookup_action root' k
          = Some (Elem "action" [("id", k)] None None (new_shortcut <$> ks))) as Hnew.
  { intros root root' target k Hch Hk Hnot.
    rewrite lookup_action_find, Hch, find_action_saved;
      [|done|by apply elem_of_iter].
    unfold action_ids in Hnot. apply not_elem_of_dom in Hnot.
    unfold lookup_action. rewrite Hnot. simpl.
    rewrite add_shortcuts_eq. eexists. done. }
  split_and!.
  - rewrite Hiw, Him. set_solver.
  - rewrite Hiw. set_solver.
  - intros k Hk Hnot. eapply Hnew; [done | set_solver | done].
  - intros k Hk Hnot. eapply Hnew; [done | set_solver | done].
Qed.

(** ** Monotonicity: what the merge does to each action *)

Lemma grows_refl a : grows a a.
Proof.
  unfold grows. split_and!; [done..|]. exists []. rewrite app_nil_r.
  split_and!; [done | constructor |]. intros k Hk. by apply elem_of_nil in Hk.
Qed.

Lemma grows_add_shortcuts a X : grows a (add_shortcuts a X).
Proof.
  rewrite add_shortcuts_eq. unfold grows. simpl. split_and!; [done..|].
  eexists. split_and!; [done | |].
  - apply NoDup_filter, NoDup_iter.
  - intros k [Hk _]%list_elem_of_filter. unfold shortcut_set in Hk.
    by rewrite elem_of_list_to_set in Hk.
Qed.

Lemma grows_values a a' :
  grows a a' →
  ∃ ks, shortcut_values a' = shortcut_values a ++ ks
        ∧ NoDup ks ∧ ∀ k, k ∈ ks → k ∉ shortcut_values a.
Proof.
  intros (_ & _ & _ & _ & ks & Hch & Hnd & Hnew). exists ks. split; [|done].
  unfold shortcut_values, findall. rewrite Hch, findall_new_shortcuts, fmap_app.
  f_equal. rewrite <- list_fmap_compose. apply list_fmap_id.
Qed.

Lemma grows_NoDup a a' :
  grows a a' → NoDup (shortcut_values a) → NoDup (shortcut_values a').
Proof.
  intros (ks & -> & Hnd & Hnew)%grows_values Ha.
  apply NoDup_app. split_and!; [done | | done].
  intros k Hk Hk'. by apply (Hnew k).
Qed.

Lemma filter_imap_grows (g : nat → Element → Element) l :
  (∀ i a, grows a (g i a)) →
  Forall2 grows (filter (λ c, tag c = "action") l)
                (filter (λ c, tag c = "action") (imap g l)).
Proof.
  revert g. induction l as [|a l IH]; intros g Hg; [constructor|].
  rewrite imap_cons, !filter_cons.
  destruct (Hg 0 a) as (Htag & _). rewrite Htag.
  case_decide.
  - constructor; [apply Hg|]. apply IH. intros i b. apply Hg.
  - apply IH. intros i b. apply Hg.
Qed.

Lemma merged_children_structure root target done :
  ∃ kept new,
    filter (λ c, tag c = "action") (merged_children root target done) = kept ++ new
    ∧ Forall2 grows (findall root "action") kept
    ∧ Forall (λ a', ∃ k, (k ∉ action_ids root) ∧ grows (new_action k) a') new.
Proof.
  unfold merged_children. rewrite filter_app. eexists _, _. split; [done|]. split.
  - apply filter_imap_grows. intros i a. case_decide; [|apply grows_refl].
    apply grows_add_shortcuts.
  - apply Forall_forall. intros a' [_ Ha']%list_elem_of_filter.
    apply list_elem_of_fmap in Ha' as (k & -> & Hk).
    apply list_elem_of_filter in Hk as [Hk _].
    exists k. split; [|apply grows_add_shortcuts].
    unfold action_ids. by apply not_elem_of_dom.
Qed.

Lemma sync_keymaps_structure wf mf fs w m w' m' fs' :
  load_keymap fs wf = Ok w → load_keymap fs mf = Ok m →
  sync_keymaps wf mf fs = (Ok (w', m'), fs') →
  (∃ kept new, children w' ≡ₚ (kept ++ new)
     ∧ Forall2 grows (findall w "action") kept
     ∧ Forall (λ a', ∃ k, (k ∉ action_ids w) ∧ grows (new_action k) a') new)
  ∧ (∃ kept new, children m' ≡ₚ (kept ++ new)
     ∧ Forall2 grows (findall m "action") kept
     ∧ Forall (λ a', ∃ k, (k ∉ action_ids m) ∧ grows (new_action k) a') new).
Proof.
  intros Hw Hm Hrun.
  destruct (sync_keymaps_documents _ _ _ _ _ _ _ _ Hw Hm Hrun) as (_ & -> & ->).
  split.
  - destruct (merged_children_structure w (all_windows w m)
                (iter (action_ids w ∪ action_ids m))) as (kept & new & -> & ? & ?).
    exists kept, new. split; [apply sort_by_id_perm | done].
  - destruct (merged_children_structure m (all_mac w m)
                (iter (action_ids w ∪ action_ids m))) as (kept & new & -> & ? & ?).
    exists kept, new. split; [apply sort_by_id_perm | done].
Qed.

(** C6. The merge is monotonic on both documents.  The actions of the output
    document are, up to the reordering done at save time, the actions of the
    input document followed by the actions created for ids the document
    lacked; each input action keeps its tag, attributes, text and tail, and
    its children (the shortcuts among them) stay in place, unaltered, with
    only new shortcuts appended after them. *)
Theorem sync_keymaps_monotonic wf mf fs w m w' m' fs' :
  load_keymap fs wf = Ok w → load_keymap fs mf = Ok m →
  sync_keymaps wf mf fs = (Ok (w', m'), fs') →
  (∃ kept new, children w' ≡ₚ (kept ++ new)
     ∧ Forall2 grows (findall w "action") kept
     ∧ Forall (λ a', ∃ k, grows (new_action k) a') new)
  ∧ (∃ kept new, children m' ≡ₚ (kept ++ new)
     ∧ Forall2 grows (findall m "action") kept
     ∧ Forall (λ a', ∃ k, grows (new_action k) a') new).
Proof.
  intros Hw Hm Hrun.
  destruct (sync_keymaps_structure _ _ _ _ _ _ _ _ Hw Hm Hrun)
    as [(kw & nw & ? & ? & Hnw) (km & nm & ? & ? & Hnm)].
  split; [exists kw, nw | exists km, nm]; (split_and!; [done..|]);
    (eapply Forall_impl; [eassumption|]); naive_solver.
Qed.

(** C5, amended.  Every action of an output document stems from an input
    action of the same document, or from a new empty action, by appending
    shortcuts whose keystrokes are pairwise distinct and differ from every
    keystroke the action already had: a keystroke already present is never
    added again, and an action whose input shortcut list had no repeated
    keystroke has none in the output. *)
Theorem sync_keymaps_no_duplication wf mf fs w m w' m' fs' :
  load_keymap fs wf = Ok w → load_keymap fs mf = Ok m →
  sync_keymaps wf mf fs = (Ok (w', m'), fs') →
  adds_no_duplicate w w' ∧ adds_no_duplicate m m'.
Proof.
  intros Hw Hm Hrun.
  assert (∀ root root',
    (∃ kept new, children root' ≡ₚ (kept ++ new)
       ∧ Forall2 grows (findall root "action") kept
       ∧ Forall (λ a', ∃ k, (k ∉ action_ids root) ∧ grows (new_action k) a') new) →
    adds_no_duplicate root root') as Hgen.
  { intros root root' (kept & new & Hperm & Hkept & Hnew) a' Ha'.
    rewrite Hperm in Ha'. apply elem_of_app in Ha' as [Ha'|Ha'].
    - apply list_elem_of_lookup_1 in Ha' as [i Hi].
      destruct (Forall2_lookup_r _ _ _ _ _ Hkept Hi) as (a & Ha & Hgr).
      apply grows_values in Hgr as Hv. destruct Hv as (added & Hv & Hnd & Hfresh).
      exists a, added. split_and!; [|done..|by apply grows_NoDup].
      left. by eapply list_elem_of_lookup_2.
    - rewrite Forall_forall in Hnew. destruct (Hnew _ Ha') as (k & _ & Hgr).
      apply grows_values in Hgr as Hv. destruct Hv as (added & Hv & Hnd & Hfresh).
      exists (new_action k), added. split_and!; [|done..|by apply grows_NoDup].
      right. by exists k. }
  destruct (sync_keymaps_structure _ _ _ _ _ _ _ _ Hw Hm Hrun) as [H1 H2].
  split; by apply Hgen.
Qed.

(** ** [save_keymap] *)

Lemma sorted_by_id_sorted l l' : sorted_by_id l = Ok l' → StronglySorted id_leq l'.
Proof.
  unfold sorted_by_id. case_decide as Hd; [done|]. intros [= <-].
  destruct (decide (Exists (λ a, get a "id" = None) l)) as [Hex|Hex].
  - destruct l as [|a [|b l]]; simpl in *.
    + constructor.
    + by repeat constructor.
    + exfalso. apply Hd. split; [lia | done].
  - apply sort_by_id_sorted. apply Forall_forall. intros a Ha.
    destruct (get a "id") eqn:Hid; [done|].
    exfalso. apply Hex. apply Exists_exists. eauto.
Qed.

Lemma sorted_by_id_fixed l l' : sorted_by_id l = Ok l' → sorted_by_id l' = Ok l'.
Proof.
  intros Hs. apply sorted_by_id_sorted in Hs as Hsorted.
  unfold sorted_by_id in *. case_decide as Hd; [done|]. injection Hs as <-.
  rewrite decide_False.
  - by rewrite sort_by_id_fixed.
  - intros [Hlen Hex]. apply Hd. split.
    + by rewrite <- (Permutation_length (sort_by_id_perm l)).
    + apply Exists_exists in Hex as (a & Ha & Hid). apply Exists_exists.
      exists a. split; [|done]. by rewrite <- (sort_by_id_perm l).
Qed.

Lemma filter_all {A} (P : A → Prop) `{∀ x, Decision (P x)} (l : list A) :
  Forall P l → filter P l = l.
Proof.
  induction 1 as [|x l Hx Hl IH]; [done|].
  by rewrite filter_cons_True, IH.
Qed.

Lemma reorder_actions_actions root root' :
  reorder_actions root = Ok root' → Forall (λ c, tag c = "action") (children root').
Proof.
  intros ->%reorder_actions_Ok. simpl. rewrite sort_by_id_perm.
  apply Forall_forall. by intros c [? _]%list_elem_of_filter.
Qed.

(** A root that [save_keymap] has put in order is left as it is by another
    pass. *)
Lemma reorder_actions_fixed root root' :
  reorder_actions root = Ok root' → reorder_actions root' = Ok root'.
Proof.
  intros Hr. apply reorder_actions_actions in Hr as Hact.
  unfold reorder_actions in *.
  destruct (sorted_by_id (findall root "action")) as [l|] eqn:Hs; [|done].
  simpl in Hr. injection Hr as <-. simpl in *.
  unfold findall. simpl. rewrite filter_all by done.
  apply sorted_by_id_fixed in Hs. rewrite Hs. done.
Qed.

Lemma write_file_lookup fs path data fs' :
  write_file fs path data = Ok fs' →
  ∃ r, fs' !! path = Some (File data r true) ∧ fs' = <[path := File data r true]> fs.
Proof.
  unfold write_file. destruct (fs !! path) as [f|].
  - destruct (writable f); [|done]. intros [= <-].
    eexists. by rewrite lookup_insert_eq.
  - intros [= <-]. eexists. by rewrite lookup_insert_eq.
Qed.

Lemma write_file_again fs path data fs' :
  write_file fs path data = Ok fs' → write_file fs' path data = Ok fs'.
Proof.
  intros (r & Hl & _)%write_file_lookup. unfold write_file. rewrite Hl. simpl.
  by rewrite insert_id.
Qed.

Lemma save_keymap_fixed root path fs root' fs' :
  save_keymap root path fs = Ok (root', fs') →
  save_keymap root' path fs' = Ok (root', fs').
Proof.
  intros (Hr & Hser & Hwr)%save_keymap_Ok. unfold save_keymap.
  rewrite (reorder_actions_fixed _ _ Hr). simpl. rewrite Hser.
  by rewrite (write_file_again _ _ _ _ Hwr).
Qed.

(** C10. [save_keymap] removes every direct child of the root that is not an
    action before writing: the children of the root it writes are exactly the
    action children of the root it was given. *)
Theorem save_keymap_drops_non_actions root path fs root' fs' :
  save_keymap root path fs = Ok (root', fs') →
  Forall (λ c, tag c = "action") (children root')
  ∧ (∀ c, c ∈ children root' ↔ c ∈ children root ∧ tag c = "action")
  ∧ (∀ c, c ∈ children root → tag c ≠ "action" → c ∉ children root')
  ∧ content <$> fs' !! path = Some (render root').
Proof.
  intros (Hr & Hser & Hwr)%save_keymap_Ok.
  apply write_file_lookup in Hwr as (r & Hl & _).
  apply reorder_actions_actions in Hr as Hact.
  apply reorder_actions_Ok in Hr as ->. simpl in *.
  assert (∀ c, c ∈ sort_by_id (findall root "action")
               ↔ c ∈ children root ∧ tag c = "action") as Hmem.
  { intros c. rewrite sort_by_id_perm. unfold findall.
    rewrite list_elem_of_filter. tauto. }
  split_and!; [done | done | | by rewrite Hl].
  intros c _ Htag [_ ?]%Hmem. done.
Qed.

(** ** Load failures *)

Lemma load_keymap_unloadable fs path :
  unloadable fs path ↔ ∃ e, load_keymap fs path = Raise e.
Proof.
  unfold unloadable, load_keymap. destruct (fs !! path) as [f|].
  - destruct (readable f); [|naive_solver].
    destruct (ET_parse (content f)); naive_solver.
  - naive_solver.
Qed.

(** C8. When either input file cannot be loaded (missing, unreadable or not
    well-formed XML) [sync_keymaps] ends with an exception and the file system
    is left exactly as it was: nothing has been written. *)
Theorem sync_keymaps_load_failure wf mf fs :
  unloadable fs wf ∨ unloadable fs mf →
  ∃ e, sync_keymaps wf mf fs = (Raise e, fs).
Proof.
  unfold sync_keymaps. intros [H|H]; apply load_keymap_unloadable in H as [e He].
  - rewrite He. eauto.
  - destruct (load_keymap fs wf); rewrite ?He; eauto.
Qed.

(** ** Actions without an id *)

Lemma serializable_child root c :
  serializable root = true → c ∈ children root → serializable c = true.
Proof.
  destruct root as [tg at_ tx tl ch]. simpl.
  intros [_ Hch]%andb_true_iff Hc.
  rewrite forallb_forall in Hch. apply Hch. by apply list_elem_of_In.
Qed.

Lemma merged_single_idless root target (ids : list (option string)) root' :
  None ∈ ids →
  reorder_actions (set_children root (merged_children root target ids)) = Ok root' →
  serializable root' = true →
  single_idless root.
Proof.
  intros Hnone Hr Hser. unfold reorder_actions, findall in Hr. simpl in Hr.
  destruct (merged_children_structure root target ids)
    as (kept & new & Hsplit & Hkept & Hnew).
  rewrite Hsplit in Hr.
  assert (∃ b, b ∈ kept ++ new ∧ get b "id" = None) as (b & Hb & Hbid).
  { assert (Some None ∈ akey <$> merged_children root target ids) as Hin.
    { apply merged_children_keys.
      destruct (decide (None ∈ action_ids root)); [by left | by right]. }
    apply list_elem_of_fmap in Hin as (b & Hkb & Hb). symmetry in Hkb.
    apply akey_Some in Hkb as [Htag Hid]. exists b. split; [|done].
    rewrite <- Hsplit. by apply list_elem_of_filter. }
  unfold sorted_by_id in Hr. case_decide as Hguard; [done|].
  simpl in Hr. injection Hr as <-.
  assert (kept ++ new = [b]) as Hone.
  { destruct (kept ++ new) as [|x [|y l]] eqn:Hl.
    - by apply elem_of_nil in Hb.
    - by apply list_elem_of_singleton in Hb as ->.
    - exfalso. apply Hguard. split; [simpl; lia|].
      apply Exists_exists. eauto. }
  rewrite Hone in Hser.
  assert (serializable b = true) as Hsb.
  { eapply serializable_child; [exact Hser|]. simpl. set_solver. }
  destruct kept as [|x kept].
  - simpl in Hone. subst new. apply Forall_cons in Hnew as [(k & _ & Hgr) _].
    destruct Hgr as (_ & Hattr & _).
    assert (k = None) as ->.
    { unfold get in Hbid. rewrite Hattr in Hbid. exact Hbid. }
    destruct b as [tg at_ tx tl ch]. simpl in *. subst at_. done.
  - destruct kept; [|by destruct kept, new].
    destruct new; [|done]. injection Hone as ->.
    apply Forall2_cons_inv_r in Hkept as (a & l & Hgr & Hl & Heq).
    apply Forall2_nil_inv_r in Hl as ->.
    exists a. split; [done|].
    destruct Hgr as (_ & Hattr & _). unfold get in *. by rewrite <- Hattr.
Qed.

Lemma save_keymap_Raise_cases root path fs e :
  save_keymap root path fs = Raise e →
  e = TypeError ∨ (e = OSError ∧ ∃ f, fs !! path = Some f ∧ writable f = false).
Proof.
  unfold save_keymap, reorder_actions, sorted_by_id.
  case_decide; cbn [mbind result_bind]; [intros [= <-]; by left|].
  destruct (serializable _); [|intros [= <-]; by left].
  unfold write_file. destruct (fs !! path) as [f|]; [|done].
  destruct (writable f) eqn:Hwr; cbn [mbind result_bind]; [done|].
  intros [= <-]. right. eauto.
Qed.

(** C9, amended.  An action without an id is not rejected: the loop uses the
    missing id as the key [None].  When both files load, a run on documents
    holding such an action goes one of four ways, none of which names the
    element.  If some action held by a dictionary has a keyboard shortcut
    without a first keystroke, the run ends with [AttributeError] and nothing
    is written.  Otherwise it ends with [TypeError] (sorting or serialising
    [None]); or with [OSError], and then one of the two files may not be
    written; or it completes, and then each of the two documents has exactly
    one action and that action has no id. *)
Theorem sync_keymaps_missing_id wf mf fs w m r fs' :
  load_keymap fs wf = Ok w → load_keymap fs mf = Ok m →
  None ∈ action_ids w ∪ action_ids m →
  sync_keymaps wf mf fs = (r, fs') →
  ((∃ k, k ∈ action_ids w ∪ action_ids m ∧ bad_id w m k) →
     r = Raise AttributeError ∧ fs' = fs)
  ∧ ((∀ k, k ∈ action_ids w ∪ action_ids m → ¬ bad_id w m k) →
     r = Raise TypeError
     ∨ (r = Raise OSError
        ∧ ∃ p f, (p = wf ∨ p = mf) ∧ fs !! p = Some f ∧ writable f = false)
     ∨ ((∃ w' m', r = Ok (w', m')) ∧ single_idless w ∧ single_idless m)).
Proof.
  intros Hw Hm Hnone H. unfold sync_keymaps in H.
  rewrite Hw, Hm, merge_keymaps_eq in H.
  split.
  - intros (k & Hk & Hbad). rewrite decide_True in H.
    2:{ apply Exists_exists. exists k. by rewrite elem_of_iter. }
    by injection H as <- <-.
  - intros Hgood. rewrite decide_False in H.
    2:{ intros (k & Hk%elem_of_iter & Hbad)%Exists_exists. by eapply Hgood. }
    unfold merged in H. apply elem_of_iter in Hnone.
    destruct (save_keymap _ wf fs) as [[w1 fs1]|e] eqn:Hsw.
    2:{ injection H as <- <-.
        apply save_keymap_Raise_cases in Hsw as [->|[-> (f & Hf & Hwr)]];
          [by left|].
        right. left. split; [done|]. exists wf, f. eauto. }
    destruct (save_keymap _ mf fs1) as [[m1 fs2]|e] eqn:Hsm.
    + injection H as <- <-. right. right.
      apply save_keymap_Ok in Hsw as (Hrw & Hserw & _).
      apply save_keymap_Ok in Hsm as (Hrm & Hserm & _).
      split; [by eauto|]. split; by eapply merged_single_idless.
    + injection H as <- <-.
      apply save_keymap_Raise_cases in Hsm as [->|[-> (f & Hf & Hwr)]];
        [by left|].
      right. left. split; [done|]. exists mf, f. split; [by right|].
      split; [|done].
      apply save_keymap_Ok in Hsw as (_ & _ & (r0 & _ & ->)%write_file_lookup).
      destruct (decide (mf = wf)) as [->|Hne].
      * rewrite lookup_insert_eq in Hf. injection Hf as <-. done.
      * by rewrite lookup_insert_ne in Hf.
Qed.

(** ** Structure up to text and tail *)

Lemma Element_deep_ind (P : Element → Prop) :
  (∀ tg at_ tx tl ch, Forall P ch → P (Elem tg at_ tx tl ch)) → ∀ e, P e.
Proof.
  intros H. fix IH 1. intros [tg at_ tx tl ch]. apply H.
  induction ch as [|c ch IHch]; constructor; [apply IH | exact IHch].
Qed.

Lemma erase_tag e : tag (erase e) = tag e.
Proof. by destruct e. Qed.

Lemma erase_attrib e : attrib (erase e) = attrib e.
Proof. by destruct e. Qed.

Lemma erase_children e : children (erase e) = erase <$> children e.
Proof. by destruct e. Qed.

Lemma erase_get e key : get (erase e) key = get e key.
Proof. by destruct e. Qed.








Lemma forallb_serializable_erase ch :
  Forall (λ c, serializable (erase c) = serializable c) ch →
  forallb serializable (erase <$> ch) = forallb serializable ch.
Proof.
  induction 1 as [|c ch Hc _ IH]; [done|].
  rewrite fmap_cons. cbn [forallb]. by rewrite Hc, IH.
Qed.

Lemma erase_serializable t : serializable (erase t) = serializable t.
Proof.
  induction t as [tg at_ tx tl ch IH] using Element_deep_ind.
  cbn [erase serializable attrib children]. f_equal.
  by apply forallb_serializable_erase.
Qed.

Lemma erase_id_leq a b : id_leq (erase a) (erase b) ↔ id_leq a b.
Proof. unfold id_leq. by rewrite !erase_get. Qed.

Lemma erase_sorted l :
  StronglySorted id_leq (erase <$> l) ↔ StronglySorted id_leq l.
Proof.
  induction l as [|a l IH]; [by split; constructor|].
  rewrite fmap_cons, !StronglySorted_cons, IH, Forall_fmap.
  apply and_iff_compat_r. apply Forall_proper; [|done].
  intros b. apply erase_id_leq.
Qed.

Lemma erase_all_actions l :
  Forall (λ c, tag c = "action") (erase <$> l) ↔ Forall (λ c, tag c = "action") l.
Proof.
  rewrite Forall_fmap. apply Forall_proper; [|done].
  intros c. simpl. by rewrite erase_tag.
Qed.

(** ** Roots that saving leaves unchanged *)

Lemma sorted_has_ids l :
  StronglySorted id_leq l →
  ¬ (2 ≤ length l ∧ Exists (λ a, get a "id" = None) l).
Proof.
  intros Hs [Hlen Hex]. destruct l as [|a [|b l]]; simpl in Hlen; [lia..|].
  apply StronglySorted_cons in Hs as [Ha _].
  apply Exists_exists in Hex as (c & Hc & Hid).
  apply Forall_cons in Ha as Ha'. destruct Ha' as [(x & y & Hx & _) _].
  apply elem_of_cons in Hc as [->|Hc]; [congruence|].
  rewrite Forall_forall in Ha. destruct (Ha c Hc) as (x' & y' & _ & Hy' & _).
  congruence.
Qed.

Lemma reorder_actions_self t :
  reorder_actions t = Ok t
  ↔ Forall (λ c, tag c = "action") (children t) ∧ StronglySorted id_leq (children t).
Proof.
  split.
  - intros Hr. split; [by eapply reorder_actions_actions|].
    unfold reorder_actions in Hr.
    destruct (sorted_by_id (findall t "action")) as [l|] eqn:Hs; [|done].
    simpl in Hr. injection Hr as Hr.
    apply sorted_by_id_sorted in Hs.
    apply (f_equal children) in Hr. simpl in Hr. by rewrite <- Hr.
  - intros [Hact Hs]. unfold reorder_actions, findall.
    rewrite filter_all by done. unfold sorted_by_id.
    rewrite decide_False by (by apply sorted_has_ids).
    simpl. by rewrite sort_by_id_fixed, set_children_id.
Qed.

Lemma reorder_actions_erase t t' :
  erase t' = erase t → reorder_actions t = Ok t → reorder_actions t' = Ok t'.
Proof.
  intros He. rewrite !reorder_actions_self.
  rewrite <- (erase_all_actions (children t)), <- (erase_sorted (children t)).
  rewrite <- (erase_all_actions (children t')), <- (erase_sorted (children t')).
  by rewrite <- !erase_children, He.
Qed.

(** ** A second run *)



Lemma convert_opt_None b o : convert_opt b o = None → o = None.
Proof. by destruct o. Qed.



Lemma filter_none {A} (P : A → Prop) `{∀ x, Decision (P x)} (l : list A) :
  (∀ x, x ∈ l → ¬ P x) → filter P l = [].
Proof.
  intros HP. induction l as [|x l IH]; [done|].
  rewrite filter_cons_False by (apply HP; set_solver).
  apply IH. intros y Hy. apply HP. set_solver.
Qed.

Lemma add_shortcuts_fixed a X : X ⊆ shortcut_set a → add_shortcuts a X = a.
Proof.
  intros HX. rewrite add_shortcuts_eq, filter_none.
  - simpl. by rewrite app_nil_r, set_children_id.
  - intros k Hk%elem_of_iter Hnot. apply Hnot. by apply HX.
Qed.



Lemma load_keymap_Ok fs path t :
  load_keymap fs path = Ok t →
  ∃ f, fs !! path = Some f ∧ readable f = true ∧ ET_parse (content f) = Some t.
Proof.
  unfold load_keymap. destruct (fs !! path) as [f|]; [|done].
  destruct (readable f) eqn:Hr; [|done].
  destruct (ET_parse (content f)) as [t'|] eqn:Hp; [|done].
  intros [= <-]. by exists f.
Qed.

Lemma write_file_readable fs path data fs' f :
  write_file fs path data = Ok fs' → fs !! path = Some f → readable f = true →
  fs' = <[path := File data true true]> fs.
Proof.
  unfold write_file. intros Hw Hf Hr. rewrite Hf in Hw.
  destruct (writable f); [|done]. rewrite Hr in Hw. by injection Hw.
Qed.


Lemma save_keymap_unchanged fs path t t' :
  fs !! path = Some (File (render t) true true) →
  reorder_actions t = Ok t → serializable t = true →
  reads_back t t' →
  save_keymap t' path fs = Ok (t', fs).
Proof.
  intros Hf Hr Hser (_ & He & Hrender). unfold save_keymap.
  rewrite (reorder_actions_erase _ _ He Hr). simpl.
  rewrite <- erase_serializable, He, erase_serializable, Hser.
  unfold write_file. rewrite Hf. simpl. rewrite Hrender.
  by rewrite insert_id.
Qed.

(** What the first run leaves behind. *)
(** C7, amended.  [save_keymap] leaves (and writes) the root with its action
    children in ascending lexicographic order of their ids, actions with
    equal ids in their original relative order; the file then holds the text
    of that root, and saving the root object again changes nothing.  For the
    document a later run loads from the written file, saving it writes the
    same bytes provided the parser returned the saved document up to text and
    tail and the pretty-printer's text for it has the same non-blank lines as
    its text for the saved document: the blank lines in which the two texts
    differ are the ones line 50 removes. *)
Theorem save_keymap_sorted root path fs root' fs' :
  save_keymap root path fs = Ok (root', fs') →
  children root' ≡ₚ findall root "action"
  ∧ StronglySorted id_leq (children root')
  ∧ (∀ k, filter (λ a, get a "id" = k) (children root')
          = filter (λ a, get a "id" = k) (findall root "action"))
  ∧ content <$> fs' !! path = Some (render root')
  ∧ save_keymap root' path fs' = Ok (root', fs')
  ∧ (∀ t', load_keymap fs' path = Ok t' → erase t' = erase root' →
       same_nonblank_lines (toprettyxml (ET_tostring t'))
                           (toprettyxml (ET_tostring root')) →
       save_keymap t' path fs' = Ok (t', fs')).
Proof.
  intros Hsave. apply save_keymap_fixed in Hsave as Hagain.
  apply save_keymap_Ok in Hsave as (Hr & Hser & Hwr).
  apply reorder_actions_fixed in Hr as Hfix.
  apply write_file_lookup in Hwr as (r & Hl & _).
  unfold reorder_actions in Hr.
  destruct (sorted_by_id (findall root "action")) as [l|] eqn:Hs; [|done].
  simpl in Hr. injection Hr as <-.
  apply sorted_by_id_sorted in Hs as Hsorted. apply sorted_by_id_Ok in Hs as ->.
  split_and!; [apply sort_by_id_perm | done | | by rewrite Hl | done |].
  { intros k. apply sort_by_id_stable. }
  intros t' Hload Herase Hlines.
  apply load_keymap_Ok in Hload as (f & Hf & Hread & Hparse).
  rewrite Hl in Hf. injection Hf as <-. simpl in Hread, Hparse. subst r.
  eapply save_keymap_unchanged; [exact Hl|exact Hfix|exact Hser|].
  split; [exact Hparse|]. split; [exact Herase|].
  unfold render, strip_blank_lines. unfold same_nonblank_lines in Hlines.
  by rewrite Hlines.
Qed.

Lemma sync_keymaps_first_run wf mf fs w m w' m' fs' :
  wf ≠ mf →
  load_keymap fs wf = Ok w → load_keymap fs mf = Ok m →
  sync_keymaps wf mf fs = (Ok (w', m'), fs') →
  fs' !! wf = Some (File (render w') true true)
  ∧ fs' !! mf = Some (File (render m') true true)
  ∧ reorder_actions w' = Ok w' ∧ reorder_actions m' = Ok m'
  ∧ serializable w' = true ∧ serializable m' = true.
Proof.
  intros Hne Hw Hm Hrun.
  apply sync_keymaps_Ok in Hrun
    as (w0 & m0 & w1 & m1 & fs1 & Hw0 & Hm0 & _ & Hsw & Hsm).
  assert (w0 = w) as -> by congruence. assert (m0 = m) as -> by congruence.
  apply save_keymap_Ok in Hsw as (Hrw & Hserw & Hww).
  apply save_keymap_Ok in Hsm as (Hrm & Hserm & Hwm).
  apply load_keymap_Ok in Hw as (f & Hf & Hfr & _).
  apply load_keymap_Ok in Hm as (g & Hg & Hgr & _).
  apply (write_file_readable _ _ _ _ f) in Hww; [|done..]. subst fs1.
  apply (write_file_readable _ _ _ _ g) in Hwm; [|by rewrite lookup_insert_ne|done].
  subst fs'.
  split_and!; [| |by eapply reorder_actions_fixed..|done|done].
  - rewrite lookup_insert_ne by done. by rewrite lookup_insert_eq.
  - by rewrite lookup_insert_eq.
Qed.

Lemma sync_keymaps_first_run_sets wf mf fs w m w' m' fs' :
  load_keymap fs wf = Ok w → load_keymap fs mf = Ok m →
  sync_keymaps wf mf fs = (Ok (w', m'), fs') →
  action_ids w' = action_ids w ∪ action_ids m
  ∧ action_ids m' = action_ids w ∪ action_ids m
  ∧ (∀ k, k ∈ action_ids w ∪ action_ids m → ¬ bad_id w m k)
  ∧ (∀ k, k ∈ action_ids w ∪ action_ids m →
       keystrokes_of w' k = all_windows w m k
       ∧ keystrokes_of m' k = all_mac w m k).
Proof.
  intros Hw Hm Hrun.
  destruct (sync_keymaps_documents _ _ _ _ _ _ _ _ Hw Hm Hrun) as (Hbad & Hcw & Hcm).
  pose proof (NoDup_iter (action_ids w ∪ action_ids m)) as Hnd.
  apply action_ids_saved in Hcw as Hiw. apply action_ids_saved in Hcm as Him.
  rewrite list_to_set_iter in Hiw, Him.
  split_and!.
  - rewrite Hiw. set_solver.
  - rewrite Him. set_solver.
  - intros k Hk%elem_of_iter Hb. apply Hbad. apply Exists_exists. eauto.
  - intros k Hk%elem_of_iter.
    rewrite (keystrokes_of_saved _ _ _ _ k Hnd Hk Hcw).
    rewrite (keystrokes_of_saved _ _ _ _ k Hnd Hk Hcm).
    unfold all_windows, all_mac. split; set_solver.
Qed.



Lemma not_bad_after w m k :
  ¬ bad_id w m k → (None ∉ all_windows w m k) ∧ (None ∉ all_mac w m k).
Proof.
  unfold bad_id, all_windows, all_mac. intros Hb.
  split; intros [H|H]%elem_of_union; try tauto;
    apply elem_of_map in H as (y & Hy & Hin); symmetry in Hy;
    apply convert_opt_None in Hy as ->; tauto.
Qed.



(** ** Further properties of the merge and of a run *)

(** X9. What [add_shortcuts] does to an action: it keeps the action and its
    children as they are and appends one new shortcut for each requested
    keystroke that no shortcut of the action has, and nothing else. *)
Theorem add_shortcuts_exact (action : Element) (shortcuts : gset (option string)) :
  ∃ ks, add_shortcuts action shortcuts
        = set_children action (children action ++ (new_shortcut <$> ks))
        ∧ ks ≡ₚ elements (shortcuts ∖ shortcut_set action).
Proof.
  exists (filter (λ k, k ∉ shortcut_set action) (iter shortcuts)).
  split; [apply add_shortcuts_eq|].
  apply NoDup_Permutation.
  - apply NoDup_filter, NoDup_iter.
  - apply NoDup_elements.
  - intros k. rewrite list_elem_of_filter, elem_of_iter, elem_of_elements.
    rewrite elem_of_difference. tauto.
Qed.

(** X10. Adding the same keystrokes to an action a second time changes
    nothing. *)
Theorem add_shortcuts_idempotent (action : Element) (shortcuts : gset (option string)) :
  add_shortcuts (add_shortcuts action shortcuts) shortcuts
  = add_shortcuts action shortcuts.
Proof.
  apply add_shortcuts_fixed. rewrite add_shortcuts_set. apply union_subseteq_r.
Qed.

Lemma save_keymap_Raise root path fs e :
  save_keymap root path fs = Raise e → e = TypeError ∨ e = OSError.
Proof.
  unfold save_keymap, reorder_actions, sorted_by_id.
  case_decide; cbn [mbind result_bind]; [naive_solver|].
  destruct (serializable _); [|naive_solver].
  unfold write_file. destruct (fs !! path) as [f|]; [|done].
  destruct (writable f); cbn [mbind result_bind]; naive_solver.
Qed.

(** X11. A keyboard shortcut without a first keystroke: when both files load,
    the run ends with [AttributeError] exactly when, for some action id, the
    action that one of the dictionaries holds has such a shortcut; nothing has
    been written then. *)
Theorem sync_keymaps_attribute_error wf mf fs w m :
  load_keymap fs wf = Ok w → load_keymap fs mf = Ok m →
  ((∃ k, k ∈ action_ids w ∪ action_ids m ∧ bad_id w m k)
     → sync_keymaps wf mf fs = (Raise AttributeError, fs))
  ∧ (∀ fs', sync_keymaps wf mf fs = (Raise AttributeError, fs')
       → ∃ k, k ∈ action_ids w ∪ action_ids m ∧ bad_id w m k).
Proof.
  intros Hw Hm. unfold sync_keymaps. rewrite Hw, Hm, merge_keymaps_eq.
  split.
  - intros (k & Hk & Hbad). rewrite decide_True; [done|].
    apply Exists_exists. exists k. by rewrite elem_of_iter.
  - intros fs'. case_decide as Hbad.
    + intros _. apply Exists_exists in Hbad as (k & Hk%elem_of_iter & Hbad). eauto.
    + unfold merged.
      destruct (save_keymap _ wf fs) as [[w1 fs1]|e] eqn:Hsw.
      * destruct (save_keymap _ mf fs1) as [[m1 fs2]|e] eqn:Hsm; [done|].
        apply save_keymap_Raise in Hsm. naive_solver.
      * apply save_keymap_Raise in Hsw. naive_solver.
Qed.

Lemma write_file_other fs path data fs' p :
  write_file fs path data = Ok fs' → p ≠ path → fs' !! p = fs !! p.
Proof.
  intros (r & _ & ->)%write_file_lookup Hp. by rewrite lookup_insert_ne.
Qed.

Lemma write_file_dom fs path data fs' :
  write_file fs path data = Ok fs' → is_Some (fs !! path) → dom fs' = dom fs.
Proof.
  intros (r & _ & ->)%write_file_lookup Hin. rewrite dom_insert_L.
  apply elem_of_dom in Hin. set_solver.
Qed.

Lemma save_keymap_other root path fs root' fs' p :
  save_keymap root path fs = Ok (root', fs') → p ≠ path → fs' !! p = fs !! p.
Proof. intros (_ & _ & Hwr)%save_keymap_Ok. by eapply write_file_other. Qed.

Lemma save_keymap_dom root path fs root' fs' :
  save_keymap root path fs = Ok (root', fs') → is_Some (fs !! path) →
  dom fs' = dom fs.
Proof. intros (_ & _ & Hwr)%save_keymap_Ok. by eapply write_file_dom. Qed.

Lemma load_keymap_is_Some fs path t : load_keymap fs path = Ok t → is_Some (fs !! path).
Proof. intros (f & -> & _)%load_keymap_Ok. eauto. Qed.

(** X12. Whatever the outcome of a run, it creates no file, deletes none, and
    leaves every file other than the two keymap files as it was. *)
Theorem sync_keymaps_other_files wf mf fs r fs' :
  sync_keymaps wf mf fs = (r, fs') →
  dom fs' = dom fs ∧ ∀ p, p ≠ wf → p ≠ mf → fs' !! p = fs !! p.
Proof.
  unfold sync_keymaps.
  destruct (load_keymap fs wf) as [w|] eqn:Hw; [|by intros [= _ <-]].
  destruct (load_keymap fs mf) as [m|] eqn:Hm; [|by intros [= _ <-]].
  destruct (merge_keymaps w m) as [[w1 m1]|]; [|by intros [= _ <-]].
  destruct (save_keymap w1 wf fs) as [[w2 fs1]|] eqn:Hsw; [|by intros [= _ <-]].
  apply load_keymap_is_Some in Hw, Hm.
  pose proof (save_keymap_dom _ _ _ _ _ Hsw Hw) as Hd1.
  assert (dom fs1 = dom fs ∧ ∀ p, p ≠ wf → p ≠ mf → fs1 !! p = fs !! p) as H1.
  { split; [done|]. intros p Hp _. by eapply save_keymap_other. }
  destruct (save_keymap m1 mf fs1) as [[m2 fs2]|] eqn:Hsm; [|by intros [= _ <-]].
  intros [= _ <-]. split.
  - rewrite <- Hd1. eapply save_keymap_dom; [done|].
    apply elem_of_dom. rewrite Hd1. by apply elem_of_dom.
  - intros p Hpw Hpm. rewrite (save_keymap_other _ _ _ _ _ p Hsm Hpm).
    by apply H1.
Qed.


(** X14. The files after a successful run: the file system is the one before
    the run with the Windows file holding the text of the Windows document
    and then the Mac file the text of the Mac document (so that, given the
    same path twice, the run leaves the Mac document in it). *)
Theorem sync_keymaps_files wf mf fs w' m' fs' :
  sync_keymaps wf mf fs = (Ok (w', m'), fs') →
  fs' = <[mf := File (render m') true true]>
          (<[wf := File (render w') true true]> fs).
Proof.
  intros Hrun.
  apply sync_keymaps_Ok in Hrun
    as (w & m & w1 & m1 & fs1 & Hw & Hm & _ & Hsw & Hsm).
  apply save_keymap_Ok in Hsw as (_ & _ & Hww).
  apply save_keymap_Ok in Hsm as (_ & _ & Hwm).
  apply load_keymap_Ok in Hw as (f & Hf & Hfr & _).
  apply load_keymap_Ok in Hm as (g & Hg & Hgr & _).
  apply (write_file_readable _ _ _ _ f) in Hww; [|done..]. subst fs1.
  destruct (decide (mf = wf)) as [->|Hne].
  - apply (write_file_readable _ _ _ _ (File (render w') true true)) in Hwm;
      [done|by rewrite lookup_insert_eq|done].
  - apply (write_file_readable _ _ _ _ g) in Hwm;
      [done|by rewrite lookup_insert_ne|done].
Qed.

(** X15. The root element of each document is kept: a successful run changes
    the list of its children and nothing else of it (tag, attributes, text and
    tail stay). *)
Theorem sync_keymaps_root wf mf fs w m w' m' fs' :
  load_keymap fs wf = Ok w → load_keymap fs mf = Ok m →
  sync_keymaps wf mf fs = (Ok (w', m'), fs') →
  w' = set_children w (children w') ∧ m' = set_children m (children m').
Proof.
  intros Hw Hm Hrun.
  apply sync_keymaps_Ok in Hrun
    as (w0 & m0 & w1 & m1 & fs1 & Hw0 & Hm0 & Hmerge & Hsw & Hsm).
  assert (w0 = w) as -> by congruence. assert (m0 = m) as -> by congruence.
  rewrite merge_keymaps_eq in Hmerge.
  case_decide as Hbad; [done|]. injection Hmerge as <- <-.
  apply save_keymap_Ok in Hsw as (Hrw & _ & _).
  apply save_keymap_Ok in Hsm as (Hrm & _ & _).
  apply reorder_actions_Ok in Hrw as ->. apply reorder_actions_Ok in Hrm as ->.
  by rewrite !set_children_twice.
Qed.

Lemma merged_children_shadowed root target (done : list (option string)) i j a b :
  i < j → children root !! i = Some a → children root !! j = Some b →
  tag b = "action" → get b "id" = get a "id" →
  a ∈ merged_children root target done.
Proof.
  intros Hij Ha Hb Htb Hid. unfold merged_children. apply elem_of_app. left.
  apply list_elem_of_lookup. exists i. rewrite list_lookup_imap, Ha. simpl.
  rewrite decide_False; [done|]. intros [Hd _].
  apply action_dict_is_last in Hd as [_ Hlast].
  apply (Hlast j b Hij Hb). by apply akey_Some.
Qed.

Lemma saved_shadowed root target (done : list (option string)) i j a b :
  i < j → children root !! i = Some a → children root !! j = Some b →
  tag a = "action" → tag b = "action" → get a "id" = get b "id" →
  a ∈ sort_by_id (filter (λ c, tag c = "action") (merged_children root target done)).
Proof.
  intros Hij Ha Hb Hta Htb Hid. rewrite sort_by_id_perm.
  apply list_elem_of_filter. split; [done|].
  by eapply merged_children_shadowed.
Qed.

(** X16. Two actions with the same id in one document: only the later one
    takes part in the merge.  Every earlier one is carried over to the saved
    document exactly as it was loaded, with no shortcut added. *)
Theorem sync_keymaps_shadowed wf mf fs w m w' m' fs' :
  load_keymap fs wf = Ok w → load_keymap fs mf = Ok m →
  sync_keymaps wf mf fs = (Ok (w', m'), fs') →
  (∀ i j a b, i < j → children w !! i = Some a → children w !! j = Some b →
     tag a = "action" → tag b = "action" → get a "id" = get b "id" →
     a ∈ children w')
  ∧ (∀ i j a b, i < j → children m !! i = Some a → children m !! j = Some b →
     tag a = "action" → tag b = "action" → get a "id" = get b "id" →
     a ∈ children m').
Proof.
  intros Hw Hm Hrun.
  destruct (sync_keymaps_documents _ _ _ _ _ _ _ _ Hw Hm Hrun) as (_ & -> & ->).
  split; intros i j a b ??????; by eapply saved_shadowed.
Qed.

Lemma merged_children_count root target (done : list (option string)) :
  NoDup done →
  length (filter (λ c, tag c = "action") (merged_children root target done))
  = length (findall root "action") + size (list_to_set done ∖ action_ids root).
Proof.
  intros Hnd. unfold merged_children. rewrite filter_app, length_app. f_equal.
  - symmetry. unfold findall. eapply Forall2_length, filter_imap_grows.
    intros i a. case_decide; [apply grows_add_shortcuts | apply grows_refl].
  - rewrite filter_all.
    2:{ apply Forall_fmap, Forall_forall. intros k _. simpl.
        by rewrite add_shortcuts_tag. }
    rewrite length_fmap.
    rewrite <- (size_list_to_set (C:=gset (option string))) by by apply NoDup_filter.
    f_equal. apply set_eq. intros k.
    rewrite elem_of_list_to_set, list_elem_of_filter, elem_of_difference,
      elem_of_list_to_set.
    unfold action_ids. rewrite not_elem_of_dom. tauto.
Qed.

(** X17. The number of actions of each saved document: the actions of the
    loaded document, duplicates included, and one more for every id that only
    the other document has. *)
Theorem sync_keymaps_action_count wf mf fs w m w' m' fs' :
  load_keymap fs wf = Ok w → load_keymap fs mf = Ok m →
  sync_keymaps wf mf fs = (Ok (w', m'), fs') →
  length (children w')
  = length (findall w "action") + size (action_ids m ∖ action_ids w)
  ∧ length (children m')
    = length (findall m "action") + size (action_ids w ∖ action_ids m).
Proof.
  intros Hw Hm Hrun.
  destruct (sync_keymaps_documents _ _ _ _ _ _ _ _ Hw Hm Hrun) as (_ & -> & ->).
  rewrite !sort_by_id_perm, !merged_children_count by apply NoDup_iter.
  rewrite list_to_set_iter.
  split; f_equal; f_equal; apply set_eq; intros k;
    rewrite !elem_of_difference, elem_of_union; tauto.
Qed.

Lemma serializable_unfold e :
  serializable e
  = forallb (λ kv, bool_decide (is_Some kv.2)) (attrib e)
    && forallb serializable (children e).
Proof. by destruct e. Qed.

Lemma serializable_set_children e l :
  serializable e = true → Forall (λ c, serializable c = true) l →
  serializable (set_children e l) = true.
Proof.
  rewrite !serializable_unfold. simpl. intros [Ha _]%andb_true_iff Hl.
  apply andb_true_iff. split; [done|].
  apply forallb_forall. intros c Hc%list_elem_of_In.
  rewrite Forall_forall in Hl. by apply Hl.
Qed.

Lemma serializable_add_shortcuts a X :
  serializable a = true → None ∉ X → serializable (add_shortcuts a X) = true.
Proof.
  intros Ha HX. rewrite add_shortcuts_eq.
  apply serializable_set_children; [done|]. apply Forall_app. split.
  - apply Forall_forall. intros c Hc. by eapply serializable_child.
  - apply Forall_fmap, Forall_forall.
    intros k [_ Hk%elem_of_iter]%list_elem_of_filter. simpl.
    destruct k as [s|]; [done|]. by destruct HX.
Qed.

Lemma well_formed_actions root a :
  well_formed root = true → a ∈ children root → tag a = "action" →
  is_Some (get a "id") ∧ (None ∉ shortcut_set a).
Proof.
  unfold well_formed. intros [_ Hall]%andb_true_iff Ha Ht.
  rewrite forallb_forall in Hall.
  assert (In a (findall root "action")) as Hin.
  { apply list_elem_of_In. unfold findall. by apply list_elem_of_filter. }
  apply Hall, andb_true_iff in Hin as [Hid Hks].
  split; [by apply bool_decide_eq_true in Hid|].
  unfold shortcut_set, shortcut_values.
  rewrite elem_of_list_to_set, list_elem_of_fmap. intros (s & Hs & Hin).
  rewrite forallb_forall in Hks.
  specialize (Hks s (proj1 (list_elem_of_In _ _) Hin)).
  apply bool_decide_eq_true in Hks. rewrite <- Hs in Hks. by destruct Hks.
Qed.

Lemma well_formed_serializable root : well_formed root = true → serializable root = true.
Proof. unfold well_formed. by intros [? _]%andb_true_iff. Qed.

Lemma well_formed_keystrokes root k :
  well_formed root = true → None ∉ keystrokes_of root k.
Proof.
  intros Hwf. rewrite (keystrokes_of_children root (children root) k eq_refl).
  unfold find_action.
  destruct (last _) as [a|] eqn:Hlast; simpl; [|set_solver].
  apply last_Some_elem_of, list_elem_of_filter in Hlast as [Hk Ha].
  apply akey_Some in Hk as [Ht _].
  by destruct (well_formed_actions root a Hwf Ha Ht).
Qed.

Lemma well_formed_ids root k :
  well_formed root = true → k ∈ action_ids root → is_Some k.
Proof.
  intros Hwf (a & Ha & [Ht <-]%akey_Some)%action_ids_spec.
  by destruct (well_formed_actions root a Hwf Ha Ht).
Qed.

Lemma well_formed_not_bad w m k :
  well_formed w = true → well_formed m = true → ¬ bad_id w m k.
Proof.
  intros Hw Hm [H|H]; by eapply well_formed_keystrokes in H.
Qed.

(** The actions of a merged document are those of the loaded one, possibly
    with shortcuts added, and new ones for ids the loop has handled. *)
Lemma merged_children_cases root target (done : list (option string)) b :
  b ∈ merged_children root target done →
  (∃ a, a ∈ children root ∧ akey b = akey a
        ∧ (b = a ∨ b = add_shortcuts a (target (get a "id"))))
  ∨ (∃ k, k ∈ done ∧ b = add_shortcuts (new_action k) (target k)).
Proof.
  unfold merged_children. intros [Hb|Hb]%elem_of_app.
  - left. apply list_elem_of_lookup in Hb as [i Hi].
    apply merged_children_akey in Hi as (a & Ha & Hk & Hcase).
    exists a. split; [|done]. apply list_elem_of_lookup. eauto.
  - right. apply list_elem_of_fmap in Hb as (k & -> & [_ Hk]%list_elem_of_filter).
    eauto.
Qed.

Lemma merged_sortable root target (done : list (option string)) :
  (∀ a, a ∈ children root → tag a = "action" → is_Some (get a "id")) →
  (∀ k, k ∈ done → is_Some k) →
  reorder_actions (set_children root (merged_children root target done))
  = Ok (set_children root
          (sort_by_id (filter (λ c, tag c = "action")
                         (merged_children root target done)))).
Proof.
  intros Hroot Hdone. unfold reorder_actions, sorted_by_id, findall. simpl.
  rewrite decide_False;
    [cbn [mbind result_bind]; by rewrite set_children_twice|].
  intros [_ (b & [Htb Hb]%list_elem_of_filter & Hnone)%Exists_exists].
  apply merged_children_cases in Hb as [(a & Ha & Hk & _)|(k & Hk & ->)].
  - assert (akey b = Some (get b "id")) as Hkb by by apply akey_Some.
    rewrite Hk in Hkb. apply akey_Some in Hkb as [Hta Hid].
    destruct (Hroot a Ha Hta) as [x Hx]. congruence.
  - rewrite add_shortcuts_get in Hnone. destruct (Hdone k Hk) as [x ->].
    done.
Qed.

Lemma merged_serializable root target (done : list (option string)) :
  serializable root = true → (∀ k, None ∉ target k) →
  (∀ k, k ∈ done → is_Some k) →
  serializable
    (set_children root
       (sort_by_id (filter (λ c, tag c = "action")
                      (merged_children root target done)))) = true.
Proof.
  intros Hser Htarget Hdone. apply serializable_set_children; [done|].
  rewrite sort_by_id_perm. apply Forall_forall.
  intros b [_ Hb]%list_elem_of_filter.
  apply merged_children_cases in Hb as [(a & Ha & _ & [->| ->])|(k & Hk & ->)].
  - by eapply serializable_child.
  - apply serializable_add_shortcuts; [by eapply serializable_child|done].
  - apply serializable_add_shortcuts; [|done].
    destruct (Hdone k Hk) as [x ->]. done.
Qed.

(** What the merge and the two reorderings give for well-formed documents. *)
Lemma well_formed_saves w m :
  well_formed w = true → well_formed m = true →
  ∃ w1 m1 w' m',
    merge_keymaps w m = Ok (w1, m1)
    ∧ reorder_actions w1 = Ok w' ∧ serializable w' = true
    ∧ reorder_actions m1 = Ok m' ∧ serializable m' = true.
Proof.
  intros Hw Hm. rewrite merge_keymaps_eq.
  rewrite decide_False.
  2:{ intros (k & _ & Hbad)%Exists_exists.
      by apply (well_formed_not_bad w m k). }
  assert (∀ k, k ∈ iter (action_ids w ∪ action_ids m) → is_Some k) as Hids.
  { intros k [Hk|Hk]%elem_of_iter%elem_of_union;
      [by apply (well_formed_ids w)|by apply (well_formed_ids m)]. }
  do 4 eexists. split; [done|]. unfold merged.
  split_and!.
  - apply merged_sortable; [|done].
    intros a Ha Ht. by destruct (well_formed_actions w a Hw Ha Ht).
  - apply merged_serializable; [by apply well_formed_serializable| |done].
    intros k. by destruct (not_bad_after w m k (well_formed_not_bad w m k Hw Hm)).
  - apply merged_sortable; [|done].
    intros a Ha Ht. by destruct (well_formed_actions m a Hm Ha Ht).
  - apply merged_serializable; [by apply well_formed_serializable| |done].
    intros k. by destruct (not_bad_after w m k (well_formed_not_bad w m k Hw Hm)).
Qed.

Lemma save_keymap_writable root path fs root' f :
  reorder_actions root = Ok root' → serializable root' = true →
  fs !! path = Some f → writable f = true →
  save_keymap root path fs
  = Ok (root', <[path := File (render root') (readable f) true]> fs).
Proof.
  intros Hr Hs Hf Hwr. unfold save_keymap. rewrite Hr. cbn [mbind result_bind].
  rewrite Hs. unfold write_file. rewrite Hf, Hwr. done.
Qed.

Lemma save_keymap_readonly root path fs root' f :
  reorder_actions root = Ok root' → serializable root' = true →
  fs !! path = Some f → writable f = false →
  save_keymap root path fs = Raise OSError.
Proof.
  intros Hr Hs Hf Hwr. unfold save_keymap. rewrite Hr. cbn [mbind result_bind].
  rewrite Hs. unfold write_file. rewrite Hf, Hwr. done.
Qed.

(** X18. A run succeeds whenever both files load, both documents are well
    formed (every attribute value a string, every action with an id, every
    keyboard shortcut with a first keystroke) and both files may be written. *)
Theorem sync_keymaps_succeeds wf mf fs w m fw fm :
  load_keymap fs wf = Ok w → load_keymap fs mf = Ok m →
  well_formed w = true → well_formed m = true →
  fs !! wf = Some fw → writable fw = true →
  fs !! mf = Some fm → writable fm = true →
  ∃ w' m' fs', sync_keymaps wf mf fs = (Ok (w', m'), fs').
Proof.
  intros Hw Hm Hwfw Hwfm Hfw Hww Hfm Hwm.
  destruct (well_formed_saves w m Hwfw Hwfm)
    as (w1 & m1 & w' & m' & Hmerge & Hrw & Hsw & Hrm & Hsm).
  unfold sync_keymaps. rewrite Hw, Hm, Hmerge.
  rewrite (save_keymap_writable _ _ _ _ _ Hrw Hsw Hfw Hww).
  destruct (decide (mf = wf)) as [->|Hne].
  - erewrite (save_keymap_writable _ _ _ _ _ Hrm Hsm);
      [by eauto|by rewrite lookup_insert_eq|done].
  - erewrite (save_keymap_writable _ _ _ _ _ Hrm Hsm);
      [by eauto|by rewrite lookup_insert_ne|done].
Qed.

(** X19. A run is not atomic: with well-formed documents, a Windows file that
    may be written and a Mac file that may not, the run ends with [OSError]
    after the Windows file has been rewritten. *)
Theorem sync_keymaps_readonly_mac wf mf fs w m fw fm :
  wf ≠ mf →
  load_keymap fs wf = Ok w → load_keymap fs mf = Ok m →
  well_formed w = true → well_formed m = true →
  fs !! wf = Some fw → writable fw = true →
  fs !! mf = Some fm → writable fm = false →
  ∃ w', sync_keymaps wf mf fs
        = (Raise OSError, <[wf := File (render w') true true]> fs)
        ∧ action_ids w' = action_ids w ∪ action_ids m.
Proof.
  intros Hne Hw Hm Hwfw Hwfm Hfw Hww Hfm Hwm.
  destruct (well_formed_saves w m Hwfw Hwfm)
    as (w1 & m1 & w' & m' & Hmerge & Hrw & Hsw & Hrm & Hsm).
  exists w'. unfold sync_keymaps. rewrite Hw, Hm, Hmerge.
  rewrite (save_keymap_writable _ _ _ _ _ Hrw Hsw Hfw Hww).
  rewrite (save_keymap_readonly _ _ _ _ fm Hrm Hsm);
    [|by rewrite lookup_insert_ne|done].
  apply load_keymap_Ok in Hw as (f & Hf & Hfr & _).
  assert (f = fw) as -> by congruence. rewrite Hfr. split; [done|].
  rewrite merge_keymaps_eq in Hmerge. case_decide; [done|].
  injection Hmerge as <- <-. apply reorder_actions_Ok in Hrw as ->.
  erewrite (action_ids_saved w _ (all_windows w m)
              (iter (action_ids w ∪ action_ids m))); [|done].
  rewrite list_to_set_iter. apply set_eq. intros k.
  rewrite !elem_of_union. tauto.
Qed.

Lemma reorder_actions_sorted root root' :
  reorder_actions root = Ok root' → StronglySorted id_leq (children root').
Proof.
  unfold reorder_actions.
  destruct (sorted_by_id (findall root "action")) as [l|] eqn:Hs; [|done].
  cbn [mbind result_bind]. intros [= <-]. simpl. by eapply sorted_by_id_sorted.
Qed.

Lemma ids_sorted_unique (l1 l2 : list Element) :
  StronglySorted id_leq l1 → StronglySorted id_leq l2 →
  ((λ a, get a "id") <$> l1) ≡ₚ ((λ a, get a "id") <$> l2) →
  (λ a, get a "id") <$> l1 = (λ a, get a "id") <$> l2.
Proof.
  intros H1 H2.
  set (R := λ x y : option string,
              ∃ a b, x = Some a ∧ y = Some b ∧ String.le a b).
  assert (AntiSymm (=) R) as Hanti.
  { intros x y (a & b & -> & -> & Hab) (a' & b' & [= <-] & [= <-] & Hba).
    f_equal. by apply (anti_symm String.le). }
  apply (@StronglySorted_unique _ R Hanti);
    by apply (StronglySorted_fmap _ id_leq).
Qed.

Lemma grows_ids l k :
  Forall2 grows l k → (λ a, get a "id") <$> k = (λ a, get a "id") <$> l.
Proof.
  induction 1 as [|a a' l k (_ & Hat & _) _ IH]; [done|].
  rewrite !fmap_cons, IH. unfold get. by rewrite Hat.
Qed.

Lemma merged_children_ids root target (done : list (option string)) :
  (λ a, get a "id")
    <$> filter (λ c, tag c = "action") (merged_children root target done)
  = ((λ a, get a "id") <$> findall root "action")
    ++ filter (λ k, action_dict root !! k = None) done.
Proof.
  unfold merged_children. rewrite filter_app, fmap_app. f_equal.
  - apply grows_ids. unfold findall. apply filter_imap_grows.
    intros i a. case_decide; [apply grows_add_shortcuts | apply grows_refl].
  - rewrite filter_all.
    2:{ apply Forall_fmap, Forall_forall. intros k _. simpl.
        by rewrite add_shortcuts_tag. }
    induction (filter _ done) as [|k l IH]; [done|].
    by rewrite !fmap_cons, IH, add_shortcuts_get.
Qed.

Lemma merged_children_ids_elem root target (done : list (option string)) k :
  k ∈ (λ a, get a "id")
        <$> filter (λ c, tag c = "action") (merged_children root target done)
  ↔ k ∈ action_ids root ∨ (k ∈ done ∧ k ∉ action_ids root).
Proof.
  rewrite merged_children_ids, elem_of_app, list_elem_of_filter.
  apply Morphisms_Prop.or_iff_morphism.
  - rewrite action_ids_spec, list_elem_of_fmap. unfold findall. split.
    + intros (a & -> & [Ht Ha]%list_elem_of_filter). exists a.
      split; [done|]. by apply akey_Some.
    + intros (a & Ha & [Ht <-]%akey_Some). exists a.
      split; [done|]. by apply list_elem_of_filter.
  - unfold action_ids. rewrite not_elem_of_dom. tauto.
Qed.

Lemma merged_children_ids_NoDup root target (done : list (option string)) :
  NoDup ((λ a, get a "id") <$> findall root "action") → NoDup done →
  NoDup ((λ a, get a "id")
           <$> filter (λ c, tag c = "action") (merged_children root target done)).
Proof.
  intros Hroot Hdone. rewrite merged_children_ids. apply NoDup_app.
  split; [done|]. split; [|by apply NoDup_filter].
  intros k (a & -> & [Ht Ha]%list_elem_of_filter)%list_elem_of_fmap
    [Hnone _]%list_elem_of_filter.
  rewrite action_dict_None in Hnone. apply (Hnone a Ha). by apply akey_Some.
Qed.

(** X20. When neither loaded document has two actions with the same id, the
    two saved documents list the same action ids in the same order. *)
Theorem sync_keymaps_same_order wf mf fs w m w' m' fs' :
  load_keymap fs wf = Ok w → load_keymap fs mf = Ok m →
  sync_keymaps wf mf fs = (Ok (w', m'), fs') →
  NoDup ((λ a, get a "id") <$> findall w "action") →
  NoDup ((λ a, get a "id") <$> findall m "action") →
  (λ a, get a "id") <$> children w' = (λ a, get a "id") <$> children m'.
Proof.
  intros Hw Hm Hrun Hndw Hndm.
  destruct (sync_keymaps_documents _ _ _ _ _ _ _ _ Hw Hm Hrun) as (_ & Hcw & Hcm).
  apply sync_keymaps_Ok in Hrun
    as (_ & _ & w1 & m1 & fs1 & _ & _ & _ & Hsw & Hsm).
  apply save_keymap_Ok in Hsw as (Hrw%reorder_actions_sorted & _ & _).
  apply save_keymap_Ok in Hsm as (Hrm%reorder_actions_sorted & _ & _).
  apply ids_sorted_unique; [done..|].
  rewrite Hcw, Hcm, !sort_by_id_perm.
  pose proof (NoDup_iter (action_ids w ∪ action_ids m)) as Hnd.
  apply NoDup_Permutation; [by apply merged_children_ids_NoDup..|].
  intros k. rewrite !merged_children_ids_elem, elem_of_iter, elem_of_union.
  destruct (decide (k ∈ action_ids w)), (decide (k ∈ action_ids m)); tauto.
Qed.

(** X21. The script as a whole: when it prints its completion line, both
    keymap files have been rewritten, with the texts of two documents that
    have the same action ids and whose actions are in ascending order of
    id. *)
Theorem main_complete fs msg fs' :
  main fs = (Ok msg, fs') →
  msg = "Keymap synchronization complete!"
  ∧ ∃ w' m',
      fs' !! "Windows - Fraser.xml" = Some (File (render w') true true)
      ∧ fs' !! "macOS - Fraser.xml" = Some (File (render m') true true)
      ∧ action_ids w' = action_ids m'
      ∧ StronglySorted id_leq (children w')
      ∧ StronglySorted id_leq (children m').
Proof.
  unfold main. cbv zeta.
  destruct (sync_keymaps _ _ fs) as [[[w' m']|e] fs1] eqn:Hrun; [|done].
  intros [= <- <-]. split; [done|]. exists w', m'.
  pose proof Hrun as Hrun'.
  apply sync_keymaps_Ok in Hrun'
    as (w & m & w1 & m1 & fs2 & Hw & Hm & _ & Hsw & Hsm).
  assert ("Windows - Fraser.xml" ≠ "macOS - Fraser.xml") as Hne by done.
  destruct (sync_keymaps_first_run _ _ _ _ _ _ _ _ Hne Hw Hm Hrun)
    as (Hfw & Hfm & _).
  destruct (sync_keymaps_first_run_sets _ _ _ _ _ _ _ _ Hw Hm Hrun)
    as (Hiw & Him & _).
  apply save_keymap_Ok in Hsw as (Hrw%reorder_actions_sorted & _ & _).
  apply save_keymap_Ok in Hsm as (Hrm%reorder_actions_sorted & _ & _).
  split_and!; [done|done|congruence|done|done].
Qed.

Lemma grows_exists_idless l k :
  Forall2 grows l k → Exists (λ a, get a "id" = None) l →
  Exists (λ a, get a "id" = None) k.
Proof.
  intros Hgrow (a & [i Hi]%list_elem_of_lookup & Hnone)%Exists_exists.
  destruct (Forall2_lookup_l _ _ _ _ _ Hgrow Hi) as (a' & Hi' & (_ & Hat & _)).
  apply Exists_exists. exists a'. split; [by eapply list_elem_of_lookup_2|].
  unfold get in *. by rewrite Hat.
Qed.

(** X25. A Windows document with two or more actions, one of them without an
    id: when both files load, the run fails, with [AttributeError] or with
    [TypeError], and nothing is written. *)
Theorem sync_keymaps_idless_windows wf mf fs w m :
  load_keymap fs wf = Ok w → load_keymap fs mf = Ok m →
  2 ≤ length (findall w "action") →
  Exists (λ a, get a "id" = None) (findall w "action") →
  sync_keymaps wf mf fs = (Raise AttributeError, fs)
  ∨ sync_keymaps wf mf fs = (Raise TypeError, fs).
Proof.
  intros Hw Hm Hlen Hnone. unfold sync_keymaps.
  rewrite Hw, Hm, merge_keymaps_eq. case_decide; [by left|]. right.
  unfold merged, save_keymap, reorder_actions, sorted_by_id, findall. simpl.
  destruct (merged_children_structure w (all_windows w m)
              (iter (action_ids w ∪ action_ids m)))
    as (kept & new & -> & Hgrow & _).
  rewrite decide_True; [done|]. split.
  - rewrite length_app, <- (Forall2_length _ _ _ Hgrow). lia.
  - apply Exists_app. left. by eapply grows_exists_idless.
Qed.

End Sync.

(** ** The scenarios of the specification, and closed instances *)

Lemma elements_order (X : gset (option string)) : elements X ≡ₚ elements X.
Proof. reflexivity. Qed.

(** Scenarios: [copy] exists on Windows only and appears on the Mac side as
    [meta+c]; [paste] has [ctrl+v] on Windows and [meta+shift+v] on Mac, and
    ends with both shortcuts on both sides. *)
Example scenario_copy_paste :
  @sync_keymaps elements paste_library windows_file mac_file
    (example_fs windows_paste mac_paste)
  = (Ok (windows_paste_synced, mac_paste_synced),
     example_fs windows_paste_synced mac_paste_synced).
Proof. vm_refl. Qed.

Lemma convert_shortcut_roundtrip_witness :
  contains "ctrl+shift+v" "meta" = false
  ∧ convert_shortcut (convert_shortcut "ctrl+shift+v" true) false = "ctrl+shift+v".
Proof.
  split; [reflexivity|]. apply (convert_shortcut_roundtrip "ctrl+shift+v").
  reflexivity.
Defined.

Lemma sync_keymaps_keystroke_union_witness :
  @sync_keymaps elements paste_library windows_file mac_file
    (example_fs windows_paste mac_paste)
  = (Ok (windows_paste_synced, mac_paste_synced),
     example_fs windows_paste_synced mac_paste_synced)
  ∧ (keystrokes_of windows_paste_synced (Some "paste")
     = keystrokes_of windows_paste (Some "paste")
       ∪ set_map (convert_opt false) (keystrokes_of mac_paste (Some "paste"))
     ∧ keystrokes_of mac_paste_synced (Some "paste")
       = keystrokes_of mac_paste (Some "paste")
         ∪ set_map (convert_opt true) (keystrokes_of windows_paste (Some "paste"))).
Proof.
  split; [vm_refl|].
  apply (sync_keymaps_keystroke_union elements elements_order (xml:=paste_library)
           windows_file mac_file (example_fs windows_paste mac_paste)
           windows_paste mac_paste windows_paste_synced mac_paste_synced
           (example_fs windows_paste_synced mac_paste_synced)).
  - vm_refl.
  - vm_refl.
  - vm_refl.
  - apply (bool_decide_unpack _). vm_compute. exact I.
Defined.

Lemma sync_keymaps_action_ids_witness :
  @sync_keymaps elements paste_library windows_file mac_file
    (example_fs windows_paste mac_paste)
  = (Ok (windows_paste_synced, mac_paste_synced),
     example_fs windows_paste_synced mac_paste_synced)
  ∧ action_ids windows_paste_synced = action_ids mac_paste_synced
  ∧ action_ids windows_paste_synced = action_ids windows_paste ∪ action_ids mac_paste.
Proof.
  split; [vm_refl|].
  edestruct (sync_keymaps_action_ids elements elements_order (xml:=paste_library)
               windows_file mac_file (example_fs windows_paste mac_paste)
               windows_paste mac_paste windows_paste_synced mac_paste_synced
               (example_fs windows_paste_synced mac_paste_synced))
    as (H1 & H2 & _).
  - vm_refl.
  - vm_refl.
  - vm_refl.
  - split; [exact H1 | exact H2].
Defined.

Lemma sync_keymaps_monotonic_witness :
  @sync_keymaps elements paste_library windows_file mac_file
    (example_fs windows_paste mac_paste)
  = (Ok (windows_paste_synced, mac_paste_synced),
     example_fs windows_paste_synced mac_paste_synced)
  ∧ ∃ kept new, children windows_paste_synced ≡ₚ (kept ++ new)
    ∧ Forall2 grows (findall windows_paste "action") kept
    ∧ Forall (λ a', ∃ k, grows (new_action k) a') new.
Proof.
  split; [vm_refl|].
  edestruct (sync_keymaps_monotonic elements elements_order (xml:=paste_library)
               windows_file mac_file (example_fs windows_paste mac_paste)
               windows_paste mac_paste windows_paste_synced mac_paste_synced
               (example_fs windows_paste_synced mac_paste_synced))
    as [H1 _].
  - vm_refl.
  - vm_refl.
  - vm_refl.
  - exact H1.
Defined.

Lemma sync_keymaps_no_duplication_witness :
  @sync_keymaps elements paste_library windows_file mac_file
    (example_fs windows_paste mac_paste)
  = (Ok (windows_paste_synced, mac_paste_synced),
     example_fs windows_paste_synced mac_paste_synced)
  ∧ adds_no_duplicate windows_paste windows_paste_synced
  ∧ adds_no_duplicate mac_paste mac_paste_synced.
Proof.
  split; [vm_refl|].
  apply (sync_keymaps_no_duplication elements elements_order (xml:=paste_library)
           windows_file mac_file (example_fs windows_paste mac_paste)
           windows_paste mac_paste windows_paste_synced mac_paste_synced
           (example_fs windows_paste_synced mac_paste_synced)).
  - vm_refl.
  - vm_refl.
  - vm_refl.
Defined.


Lemma save_keymap_sorted_witness :
  @save_keymap reread_library
    (keymap [action "paste" ["ctrl+v"; "ctrl+shift+v"]; action "copy" ["ctrl+c"]])
    windows_file ∅
  = Ok (windows_paste_synced,
        <[windows_file := File (@render reread_library windows_paste_synced)
                            true true]> ∅)
  ∧ StronglySorted id_leq (children windows_paste_synced)
  ∧ @load_keymap reread_library
      (<[windows_file := File (@render reread_library windows_paste_synced)
                           true true]> ∅) windows_file
    = Ok windows_paste_reread
  ∧ @toprettyxml reread_library (@ET_tostring reread_library windows_paste_reread)
    ≠ @toprettyxml reread_library (@ET_tostring reread_library windows_paste_synced)
  ∧ @save_keymap reread_library windows_paste_reread windows_file
      (<[windows_file := File (@render reread_library windows_paste_synced)
                           true true]> ∅)
    = Ok (windows_paste_reread,
          <[windows_file := File (@render reread_library windows_paste_synced)
                              true true]> ∅).
Proof.
  edestruct (save_keymap_sorted (xml:=reread_library)
               (keymap [action "paste" ["ctrl+v"; "ctrl+shift+v"];
                        action "copy" ["ctrl+c"]])
               windows_file ∅ windows_paste_synced
               (<[windows_file := File (@render reread_library windows_paste_synced)
                                    true true]> ∅))
    as (_ & H2 & _ & _ & _ & H6).
  - vm_refl.
  - split; [vm_refl|]. split; [exact H2|]. split; [vm_refl|].
    split; [vm_compute; discriminate|].
    apply (H6 windows_paste_reread); [vm_refl|vm_refl|].
    unfold same_nonblank_lines. vm_via.
Defined.

Lemma save_keymap_drops_non_actions_witness :
  @save_keymap (example_library []) windows_mixed windows_file
    (example_fs windows_mixed mac_empty)
  = Ok (windows_mixed_saved, example_fs windows_mixed_saved mac_empty)
  ∧ Forall (λ c, tag c = "action") (children windows_mixed_saved)
  ∧ Elem "option" [("name", Some "x")] None None [] ∉ children windows_mixed_saved.
Proof.
  edestruct (save_keymap_drops_non_actions (xml:=example_library []) windows_mixed
               windows_file (example_fs windows_mixed mac_empty)
               windows_mixed_saved (example_fs windows_mixed_saved mac_empty))
    as (H1 & _ & H3 & _).
  - vm_refl.
  - split; [vm_refl|]. split; [exact H1|]. apply H3; [|discriminate].
    apply list_elem_of_further, list_elem_of_here.
Defined.

Lemma sync_keymaps_load_failure_witness :
  @unloadable paste_library ∅ windows_file
  ∧ ∃ e, @sync_keymaps elements paste_library windows_file mac_file ∅ = (Raise e, ∅).
Proof.
  split; [exact I|].
  apply (sync_keymaps_load_failure elements (xml:=paste_library)).
  left. exact I.
Defined.

Lemma sync_keymaps_missing_id_witness :
  None ∈ action_ids windows_noid ∪ action_ids mac_empty
  ∧ (∀ k, k ∈ action_ids windows_noid ∪ action_ids mac_empty →
       ¬ bad_id windows_noid mac_empty k)
  ∧ @sync_keymaps elements noid_library windows_file mac_file
      (example_fs windows_noid mac_empty)
    = (Raise TypeError, example_fs windows_noid mac_empty)
  ∧ (Raise (A:=Element * Element) TypeError = Raise TypeError
     ∨ (Raise (A:=Element * Element) TypeError = Raise OSError
        ∧ ∃ p f, (p = windows_file ∨ p = mac_file)
                 ∧ example_fs windows_noid mac_empty !! p = Some f
                 ∧ writable f = false)
     ∨ ((∃ w' m' : Element, Raise TypeError = Ok (w', m'))
        ∧ single_idless windows_noid ∧ single_idless mac_empty)).
Proof.
  assert (None ∈ action_ids windows_noid ∪ action_ids mac_empty) as Hnone.
  { apply (bool_decide_unpack _). vm_compute. exact I. }
  assert (∀ k, k ∈ action_ids windows_noid ∪ action_ids mac_empty →
            ¬ bad_id windows_noid mac_empty k) as Hgood.
  { assert (action_ids windows_noid ∪ action_ids mac_empty = {[None]}) as ->
      by vm_refl.
    intros k ->%elem_of_singleton.
    apply (bool_decide_unpack _). vm_compute. exact I. }
  split; [exact Hnone|]. split; [exact Hgood|]. split; [vm_refl|].
  edestruct (sync_keymaps_missing_id elements elements_order (xml:=noid_library)
               windows_file mac_file (example_fs windows_noid mac_empty)
               windows_noid mac_empty (Raise TypeError)
               (example_fs windows_noid mac_empty))
    as [_ H2].
  - vm_refl.
  - vm_refl.
  - exact Hnone.
  - vm_refl.
  - exact (H2 Hgood).
Defined.

(** ** Inputs on which claims of the specification fail *)


(** C5 as stated fails: a shortcut that the input holds twice is still there
    twice after the merge. *)
Lemma duplicate_shortcut_survives :
  @sync_keymaps elements (example_library [windows_twice; mac_empty])
    windows_file mac_file (example_fs windows_twice mac_empty)
  = (Ok (windows_twice, mac_twice_synced), example_fs windows_twice mac_twice_synced)
  ∧ shortcut_values <$> children windows_twice = [[Some "ctrl+z"; Some "ctrl+z"]]
  ∧ ¬ Forall (λ a, NoDup (shortcut_values a)) (children windows_twice).
Proof.
  split; [vm_refl|]. split; [vm_refl|].
  intros Hall. apply Forall_cons in Hall as [Hnd _].
  apply NoDup_cons in Hnd as [Hnot _]. apply Hnot. apply list_elem_of_here.
Qed.

(** C7 as stated fails in its second half.  The document has one action
    whose keystroke holds a line feed; it is sorted and there is nothing to
    merge.  The pretty-printer writes the line feed as it is, the parser
    reads it back as a space, and saving the document read back writes other
    bytes. *)
Lemma resave_changes_bytes :
  @save_keymap reread_library windows_linefeed windows_file ∅
  = Ok (windows_linefeed,
        <[windows_file := File (@render reread_library windows_linefeed)
                            true true]> ∅)
  ∧ @load_keymap reread_library
      (<[windows_file := File (@render reread_library windows_linefeed)
                           true true]> ∅) windows_file
    = Ok windows_linefeed_reread
  ∧ @save_keymap reread_library windows_linefeed_reread windows_file
      (<[windows_file := File (@render reread_library windows_linefeed)
                           true true]> ∅)
    = Ok (windows_linefeed_reread,
          <[windows_file := File (@render reread_library windows_linefeed_reread)
                              true true]> ∅)
  ∧ @render reread_library windows_linefeed_reread
    ≠ @render reread_library windows_linefeed.
Proof.
  split; [vm_refl|]. split; [vm_refl|]. split; [vm_refl|].
  vm_compute. discriminate.
Qed.

(** C9 as stated fails: each document consists of one action without an id;
    the run completes, merges the two actions under the key [None] and writes
    both files. *)
Lemma missing_id_accepted :
  None ∈ action_ids windows_noid
  ∧ @sync_keymaps elements noid_library windows_file mac_file
      (example_fs windows_noid mac_noid)
    = (Ok (windows_noid, mac_noid_synced), example_fs windows_noid mac_noid_synced).
Proof.
  split; [apply (bool_decide_unpack _); vm_compute; exact I | vm_refl].
Qed.

(** ** Further properties of the translator *)

(** X1. The round trip in the other direction: a keystroke string with no
    occurrence of [ctrl] is returned unchanged by translating it toward the
    Windows convention and back toward the Mac convention. *)
Theorem convert_shortcut_roundtrip_mac (s : string) :
  contains s "ctrl" = false →
  convert_shortcut (convert_shortcut s false) true = s.
Proof.
  intros H. unfold convert_shortcut. by apply replace_roundtrip.
Qed.

Lemma convert_shortcut_roundtrip_mac_witness :
  contains "meta+shift+v" "ctrl" = false
  ∧ convert_shortcut (convert_shortcut "meta+shift+v" false) true = "meta+shift+v".
Proof.
  split; [reflexivity|]. apply (convert_shortcut_roundtrip_mac "meta+shift+v").
  reflexivity.
Defined.

Lemma replace_absent s old new : contains s old = false → replace s old new = s.
Proof.
  induction s as [|c s IH]; [done|].
  intros Hc. assert (startswith (String c s) old = false) as Hst.
  { destruct (startswith (String c s) old) eqn:Hst; [|done].
    apply contains_startswith in Hst. congruence. }
  rewrite replace_nomatch by done. f_equal. apply IH.
  by apply contains_cons in Hc.
Qed.

(** X2. A keystroke string in which the token to be replaced does not occur is
    returned as it is, in both directions. *)
Theorem convert_shortcut_absent (s : string) (to_mac : bool) :
  contains s (if to_mac then "ctrl" else "meta") = false →
  convert_shortcut s to_mac = s.
Proof.
  intros H. unfold convert_shortcut. destruct to_mac; by apply replace_absent.
Qed.

Lemma convert_shortcut_absent_witness :
  contains "alt+F4" "ctrl" = false ∧ convert_shortcut "alt+F4" true = "alt+F4".
Proof.
  split; [reflexivity|]. apply (convert_shortcut_absent "alt+F4" true). reflexivity.
Defined.

Lemma contains_app_new new r a o :
  mem_char a new = false → contains r (String a o) = false →
  contains (new +:+ r) (String a o) = false.
Proof.
  intros Hnew Hr. induction new as [|x n IH]; [done|].
  simpl in Hnew. case_decide as Hax; [done|].
  change (String x n +:+ r) with (String x (n +:+ r)).
  cbn [contains]. rewrite IH by done. rewrite orb_false_r.
  destruct (startswith (String x (n +:+ r)) (String a o)) eqn:Hst; [|done].
  apply startswith_cons in Hst as [-> _]. done.
Qed.

(** No occurrence of [old] is left after replacing it by [new], when the first
    character of each does not occur in the other (beyond its own head). *)
Lemma replace_removes a o b n s :
  mem_char b o = false → mem_char a (String b n) = false →
  contains (replace s (String a o) (String b n)) (String a o) = false.
Proof.
  intros Hbo Han.
  remember (String.length s) as k eqn:Hk. revert s Hk.
  induction k as [k IH] using lt_wf_ind. intros s ->.
  destruct s as [|c s]; [done|].
  destruct (startswith (String c s) (String a o)) eqn:Hst.
  - apply startswith_app in Hst as [r Hr]. rewrite Hr.
    rewrite replace_match by done. apply contains_app_new; [done|].
    eapply IH; [|done]. rewrite Hr, string_length_app. simpl. lia.
  - rewrite replace_nomatch by done. cbn [contains].
    rewrite (IH (String.length s)) by (done || simpl; lia).
    rewrite orb_false_r.
    destruct (startswith (String c (replace s (String a o) (String b n)))
                (String a o)) eqn:Hpre; [|done].
    apply startswith_cons in Hpre as [-> Hpre].
    apply startswith_replace in Hpre; [|done..].
    assert (startswith (String c s) (String c o) = true) as Hs
      by (by apply startswith_cons).
    congruence.
Qed.

(** X3. Translation leaves no occurrence of the token it replaces: after
    translating toward Mac the string holds no [ctrl], after translating
    toward Windows it holds no [meta]. *)
Theorem convert_shortcut_removes (s : string) (to_mac : bool) :
  contains (convert_shortcut s to_mac) (if to_mac then "ctrl" else "meta") = false.
Proof.
  unfold convert_shortcut. destruct to_mac; by apply replace_removes.
Qed.

(** X4. Translating twice in the same direction is the same as translating
    once. *)
Theorem convert_shortcut_idempotent (s : string) (to_mac : bool) :
  convert_shortcut (convert_shortcut s to_mac) to_mac = convert_shortcut s to_mac.
Proof.
  unfold convert_shortcut. destruct to_mac; apply replace_absent;
    by apply replace_removes.
Qed.

(** ** The text post-processing of [save_keymap] *)

Lemma split_lines_nonempty s : split_lines s ≠ [].
Proof.
  destruct s as [|c s]; [done|]. simpl.
  case_decide; [done|]. by destruct (split_lines s).
Qed.

Lemma join_lines_cons l l' ls :
  join_lines (l :: l' :: ls) = l +:+ String LF (join_lines (l' :: ls)).
Proof. done. Qed.

Lemma join_lines_split_lines s : join_lines (split_lines s) = s.
Proof.
  induction s as [|c s IH]; [done|]. simpl.
  pose proof (split_lines_nonempty s) as Hne.
  destruct (split_lines s) as [|l ls]; [done|].
  case_decide.
  - subst c. rewrite join_lines_cons, IH. done.
  - destruct ls as [|l' ls].
    + change (join_lines [l]) with l in IH. by rewrite <- IH.
    + rewrite join_lines_cons in *. by rewrite <- IH.
Qed.

(** X5. Splitting a text at its line breaks and joining the lines again gives
    the text back. *)
Theorem join_split_lines (s : string) : join_lines (split_lines s) = s.
Proof. apply join_lines_split_lines. Qed.

Lemma split_lines_line l : mem_char LF l = false → split_lines l = [l].
Proof.
  induction l as [|c l IH]; [done|]. cbn [mem_char split_lines]. intros H.
  destruct (decide (LF = c)) as [|Hc]; [done|].
  destruct (decide (c = LF)) as [|_]; [by subst|]. by rewrite IH.
Qed.

Lemma split_lines_app l r :
  mem_char LF l = false → split_lines (l +:+ String LF r) = l :: split_lines r.
Proof.
  induction l as [|c l IH]; intros H.
  - change ("" +:+ String LF r) with (String LF r). cbn [split_lines].
    by destruct (decide (LF = LF)).
  - cbn [mem_char] in H. destruct (decide (LF = c)) as [|Hc]; [done|].
    change (String c l +:+ String LF r) with (String c (l +:+ String LF r)).
    cbn [split_lines]. destruct (decide (c = LF)) as [|_]; [by subst|].
    by rewrite IH.
Qed.

Lemma split_lines_no_LF s : Forall (λ l, mem_char LF l = false) (split_lines s).
Proof.
  induction s as [|c s IH]; [by repeat constructor|]. simpl.
  case_decide as Hc; [by constructor|].
  destruct (split_lines s) as [|l ls].
  - constructor; [|done]. cbn [mem_char]. by destruct (decide (LF = c)).
  - apply Forall_cons in IH as [Hl Hls]. constructor; [|done].
    cbn [mem_char]. by destruct (decide (LF = c)).
Qed.

Lemma split_join_lines ls :
  ls ≠ [] → Forall (λ l, mem_char LF l = false) ls →
  split_lines (join_lines ls) = ls.
Proof.
  induction ls as [|l ls IH]; [done|]. intros _ Hall.
  apply Forall_cons in Hall as [Hl Hls]. destruct ls as [|l' ls].
  - by apply split_lines_line.
  - rewrite join_lines_cons, split_lines_app by done. f_equal. by apply IH.
Qed.

Lemma kept_lines_no_LF xml :
  Forall (λ l, mem_char LF l = false)
    (filter (λ line, is_blank line = false) (split_lines xml)).
Proof.
  apply Forall_forall. intros l [_ Hl]%list_elem_of_filter.
  pose proof (split_lines_no_LF xml) as H. rewrite Forall_forall in H. by apply H.
Qed.

Lemma strip_blank_lines_split xml :
  let kept := filter (λ line, is_blank line = false) (split_lines xml) in
  (kept = [] ∧ strip_blank_lines xml = "")
  ∨ (split_lines (strip_blank_lines xml) = kept
     ∧ Forall (λ line, is_blank line = false) (split_lines (strip_blank_lines xml))).
Proof.
  intros kept. unfold strip_blank_lines. fold kept.
  destruct kept as [|l ls] eqn:Hk; [by left|]. right.
  assert (split_lines (join_lines (l :: ls)) = l :: ls) as ->.
  { apply split_join_lines; [done|]. rewrite <- Hk. apply kept_lines_no_LF. }
  split; [done|]. rewrite <- Hk. apply Forall_forall.
  by intros x [? _]%list_elem_of_filter.
Qed.

(** X6. What line 50 keeps: when the text has a line that is not blank, the
    lines of the result are exactly the non-blank lines of the text, in
    order; when every line is blank the result is empty. *)
Theorem strip_blank_lines_lines (xml : string) :
  let kept := filter (λ line, is_blank line = false) (split_lines xml) in
  (kept = [] ∧ strip_blank_lines xml = "")
  ∨ (split_lines (strip_blank_lines xml) = kept
     ∧ Forall (λ line, is_blank line = false) (split_lines (strip_blank_lines xml))).
Proof. apply strip_blank_lines_split. Qed.

(** X7. Removing the blank lines of a text whose blank lines have been removed
    changes nothing. *)
Theorem strip_blank_lines_idempotent (xml : string) :
  strip_blank_lines (strip_blank_lines xml) = strip_blank_lines xml.
Proof.
  destruct (strip_blank_lines_split xml) as [[_ ->]|[Hsplit Hall]]; [done|].
  unfold strip_blank_lines at 1. rewrite filter_all by done.
  apply join_lines_split_lines.
Qed.




Lemma not_tag_byte c : Ascii.nat_of_ascii c ≠ 60 → "<"%char ≠ c.
Proof. intros H <-. by apply H. Qed.

Lemma is_blank_no_tag_bounded n :
  ∀ s, String.length s ≤ n → is_blank s = true → mem_char "<" s = false.
Proof.
  induction n as [|n IH]; intros s Hlen.
  { destruct s; [done|]. simpl in Hlen. lia. }
  destruct s as [|c1 s1]; [done|]. simpl in Hlen. cbn [is_blank mem_char].
  destruct (byte_in c1 9 13 || byte_in c1 28 32) eqn:E1.
  { intros Hb. rewrite decide_False; [apply IH; [lia|done]|].
    apply not_tag_byte. byte_facts E1. lia. }
  destruct s1 as [|c2 s2]; [done|]. simpl in Hlen.
  destruct (byte_is c1 194 && (byte_is c2 133 || byte_is c2 160)) eqn:E2.
  { intros Hb. cbn [mem_char].
    rewrite !decide_False; [apply IH; [lia|done]|..];
      apply not_tag_byte; byte_facts E2; lia. }
  destruct s2 as [|c3 s3]; [done|]. simpl in Hlen.
  match goal with |- (if ?b then _ else _) = true → _ => destruct b eqn:E3 end;
    [|done].
  intros Hb. cbn [mem_char].
  rewrite !decide_False; [apply IH; [lia|done]|..];
    apply not_tag_byte; byte_facts E3; lia.
Qed.

Lemma is_blank_no_tag s : mem_char "<" s = true → is_blank s = false.
Proof.
  intros H. destruct (is_blank s) eqn:Hb; [|done].
  apply (is_blank_no_tag_bounded (String.length s)) in Hb; [congruence|done].
Qed.

(** X22. Line 50 never drops a line that holds a tag: every line of the
    pretty-printed text with a [<] in it is a line of the result. *)
Theorem strip_blank_lines_keeps_tags (xml line : string) :
  line ∈ split_lines xml → mem_char "<" line = true →
  line ∈ split_lines (strip_blank_lines xml).
Proof.
  intros Hin Htag.
  assert (line ∈ filter (λ line, is_blank line = false) (split_lines xml)) as Hk.
  { apply list_elem_of_filter. split; [by apply is_blank_no_tag|done]. }
  destruct (strip_blank_lines_split xml) as [[Hnil _]|[-> _]]; [|done].
  rewrite Hnil in Hk. by apply not_elem_of_nil in Hk.
Qed.

Lemma strip_blank_lines_keeps_tags_witness :
  "<keymap/>" ∈ split_lines (String LF "<keymap/>")
  ∧ mem_char "<" "<keymap/>" = true
  ∧ "<keymap/>" ∈ split_lines (strip_blank_lines (String LF "<keymap/>")).
Proof.
  assert ("<keymap/>" ∈ split_lines (String LF "<keymap/>")) as Hin.
  { apply (bool_decide_unpack _). vm_compute. exact I. }
  split; [exact Hin|]. split; [reflexivity|].
  apply (strip_blank_lines_keeps_tags (String LF "<keymap/>") "<keymap/>");
    [exact Hin|reflexivity].
Defined.

(** ** The translator, key by key *)

Lemma replace_empty old new : replace "" old new = "".
Proof. done. Qed.

Lemma replace_length old new s :
  old ≠ "" → String.length new = String.length old →
  String.length (replace s old new) = String.length s.
Proof.
  intros Hold Hlen.
  remember (String.length s) as k eqn:Hk. revert s Hk.
  induction k as [k IH] using lt_wf_ind. intros s ->.
  destruct s as [|c s]; [done|].
  destruct (startswith (String c s) old) eqn:Hst.
  - apply startswith_app in Hst as [r Hr]. rewrite Hr.
    rewrite replace_match by done. rewrite !string_length_app, Hlen. f_equal.
    eapply IH; [|done]. rewrite Hr, string_length_app.
    destruct old; [done|]. simpl. lia.
  - rewrite replace_nomatch by done. simpl. f_equal.
    eapply IH; [|done]. simpl. lia.
Qed.

(** X23. Translation keeps the length of a keystroke string. *)
Theorem convert_shortcut_length (s : string) (to_mac : bool) :
  String.length (convert_shortcut s to_mac) = String.length s.
Proof.
  unfold convert_shortcut. destruct to_mac; by apply replace_length.
Qed.

Lemma startswith_sep a sep b old :
  mem_char sep old = false →
  startswith (a +:+ String sep b) old = startswith a old.
Proof.
  revert a. induction old as [|o old IH]; intros a Hsep; [by destruct a|].
  cbn [mem_char] in Hsep. destruct (decide (sep = o)) as [|Hne]; [done|].
  destruct a as [|c a].
  - change ("" +:+ String sep b) with (String sep b). cbn [startswith].
    by destruct (decide (o = sep)).
  - change (String c a +:+ String sep b) with (String c (a +:+ String sep b)).
    cbn [startswith]. destruct (decide (o = c)); [by apply IH|done].
Qed.

Lemma string_app_assoc (a b c : string) : (a +:+ b) +:+ c = a +:+ (b +:+ c).
Proof.
  induction a as [|x a IH]; [done|].
  change (String x a +:+ b) with (String x (a +:+ b)).
  change (String x (a +:+ b) +:+ c) with (String x ((a +:+ b) +:+ c)).
  by rewrite IH.
Qed.

Lemma replace_sep old new sep a b :
  old ≠ "" → mem_char sep old = false →
  replace (a +:+ String sep b) old new
  = replace a old new +:+ String sep (replace b old new).
Proof.
  intros Hold Hsep.
  remember (String.length a) as k eqn:Hk. revert a Hk.
  induction k as [k IH] using lt_wf_ind. intros a ->.
  pose proof (startswith_sep a sep b old Hsep) as Hst.
  destruct a as [|c a].
  - change ("" +:+ String sep b) with (String sep b) in *.
    rewrite replace_nomatch; [done|]. rewrite Hst. by destruct old.
  - destruct (startswith (String c a) old) eqn:Hpre.
    + apply startswith_app in Hpre as [r Hr]. rewrite Hr.
      rewrite string_app_assoc, !replace_match by done.
      rewrite string_app_assoc. f_equal.
      eapply IH; [|done]. rewrite Hr, string_length_app.
      destruct old; [done|]. simpl. lia.
    + change (String c a +:+ String sep b)
        with (String c (a +:+ String sep b)) in *.
      rewrite !replace_nomatch by done.
      change (String c (replace a old new) +:+ String sep (replace b old new))
        with (String c (replace a old new +:+ String sep (replace b old new))).
      f_equal. eapply IH; [|done]. simpl. lia.
Qed.

(** X24. Translation works key by key: a match never spans a [+], so the
    translation of two parts joined by [+] is the two translations joined by
    [+]. *)
Theorem convert_shortcut_keys (a b : string) (to_mac : bool) :
  convert_shortcut (a +:+ "+" +:+ b) to_mac
  = convert_shortcut a to_mac +:+ "+" +:+ convert_shortcut b to_mac.
Proof.
  unfold convert_shortcut.
  change ("+" +:+ b) with (String "+" b).
  destruct to_mac; by rewrite replace_sep.
Qed.

(** ** Closed instances of the further properties *)

Lemma add_shortcuts_exact_witness :
  ∃ ks, add_shortcuts elements (action "paste" ["ctrl+v"])
          {[Some "ctrl+v"; Some "ctrl+shift+v"]}
        = set_children (action "paste" ["ctrl+v"])
            (children (action "paste" ["ctrl+v"]) ++ (new_shortcut <$> ks))
        ∧ ks ≡ₚ elements (({[Some "ctrl+v"; Some "ctrl+shift+v"]}
                             : gset (option string))
                          ∖ shortcut_set (action "paste" ["ctrl+v"])).
Proof.
  apply (add_shortcuts_exact elements elements_order (action "paste" ["ctrl+v"])
           {[Some "ctrl+v"; Some "ctrl+shift+v"]}).
Defined.

Lemma add_shortcuts_idempotent_witness :
  add_shortcuts elements
    (add_shortcuts elements (action "paste" ["ctrl+v"]) {[Some "ctrl+shift+v"]})
    {[Some "ctrl+shift+v"]}
  = add_shortcuts elements (action "paste" ["ctrl+v"]) {[Some "ctrl+shift+v"]}.
Proof.
  apply (add_shortcuts_idempotent elements elements_order
           (action "paste" ["ctrl+v"]) {[Some "ctrl+shift+v"]}).
Defined.

Lemma sync_keymaps_attribute_error_witness :
  @load_keymap broken_library (example_fs windows_paste mac_broken) windows_file
  = Ok windows_paste
  ∧ @load_keymap broken_library (example_fs windows_paste mac_broken) mac_file
    = Ok mac_broken
  ∧ bad_id windows_paste mac_broken (Some "find")
  ∧ @sync_keymaps elements broken_library windows_file mac_file
      (example_fs windows_paste mac_broken)
    = (Raise AttributeError, example_fs windows_paste mac_broken).
Proof.
  assert (@load_keymap broken_library (example_fs windows_paste mac_broken)
            windows_file = Ok windows_paste) as Hw by vm_refl.
  assert (@load_keymap broken_library (example_fs windows_paste mac_broken)
            mac_file = Ok mac_broken) as Hm by vm_refl.
  assert (bad_id windows_paste mac_broken (Some "find")) as Hbad.
  { apply (bool_decide_unpack _). vm_compute. exact I. }
  split; [exact Hw|]. split; [exact Hm|]. split; [exact Hbad|].
  apply (sync_keymaps_attribute_error elements elements_order
           (xml:=broken_library) windows_file mac_file
           (example_fs windows_paste mac_broken) windows_paste mac_broken Hw Hm).
  exists (Some "find"). split; [|exact Hbad].
  apply (bool_decide_unpack _). vm_compute. exact I.
Defined.

Lemma sync_keymaps_other_files_witness :
  @sync_keymaps elements paste_library windows_file mac_file
    (<["notes.txt" := File "todo" true true]> (example_fs windows_paste mac_paste))
  = (Ok (windows_paste_synced, mac_paste_synced),
     <["notes.txt" := File "todo" true true]>
       (example_fs windows_paste_synced mac_paste_synced))
  ∧ (<["notes.txt" := File "todo" true true]>
       (example_fs windows_paste_synced mac_paste_synced)) !! "notes.txt"
    = (<["notes.txt" := File "todo" true true]>
         (example_fs windows_paste mac_paste)) !! "notes.txt".
Proof.
  assert (@sync_keymaps elements paste_library windows_file mac_file
            (<["notes.txt" := File "todo" true true]>
               (example_fs windows_paste mac_paste))
          = (Ok (windows_paste_synced, mac_paste_synced),
             <["notes.txt" := File "todo" true true]>
               (example_fs windows_paste_synced mac_paste_synced))) as Hrun
    by vm_refl.
  split; [exact Hrun|].
  destruct (sync_keymaps_other_files elements elements_order (xml:=paste_library)
              windows_file mac_file _ _ _ Hrun) as [_ Hother].
  apply Hother; discriminate.
Defined.


Lemma sync_keymaps_files_witness :
  @sync_keymaps elements paste_library windows_file mac_file
    (example_fs windows_paste mac_paste)
  = (Ok (windows_paste_synced, mac_paste_synced),
     example_fs windows_paste_synced mac_paste_synced)
  ∧ example_fs windows_paste_synced mac_paste_synced
    = <[mac_file := File (@render paste_library mac_paste_synced) true true]>
        (<[windows_file := File (@render paste_library windows_paste_synced) true true]>
           (example_fs windows_paste mac_paste)).
Proof.
  assert (@sync_keymaps elements paste_library windows_file mac_file
            (example_fs windows_paste mac_paste)
          = (Ok (windows_paste_synced, mac_paste_synced),
             example_fs windows_paste_synced mac_paste_synced)) as Hrun by vm_refl.
  split; [exact Hrun|].
  apply (sync_keymaps_files elements (xml:=paste_library)
           windows_file mac_file _ _ _ _ Hrun).
Defined.

Lemma sync_keymaps_root_witness :
  @sync_keymaps elements paste_library windows_file mac_file
    (example_fs windows_paste mac_paste)
  = (Ok (windows_paste_synced, mac_paste_synced),
     example_fs windows_paste_synced mac_paste_synced)
  ∧ windows_paste_synced
    = set_children windows_paste (children windows_paste_synced)
  ∧ mac_paste_synced = set_children mac_paste (children mac_paste_synced).
Proof.
  split; [vm_refl|].
  apply (sync_keymaps_root elements elements_order (xml:=paste_library)
           windows_file mac_file (example_fs windows_paste mac_paste)
           windows_paste mac_paste windows_paste_synced mac_paste_synced
           (example_fs windows_paste_synced mac_paste_synced)).
  - vm_refl.
  - vm_refl.
  - vm_refl.
Defined.

Lemma sync_keymaps_shadowed_witness :
  @sync_keymaps elements run_library windows_file mac_file
    (example_fs windows_run mac_run)
  = (Ok (windows_run_synced, mac_run_synced),
     example_fs windows_run_synced mac_run_synced)
  ∧ action "run" ["ctrl+r"] ∈ children windows_run_synced.
Proof.
  split; [vm_refl|].
  edestruct (sync_keymaps_shadowed elements elements_order (xml:=run_library)
               windows_file mac_file (example_fs windows_run mac_run)
               windows_run mac_run windows_run_synced mac_run_synced
               (example_fs windows_run_synced mac_run_synced))
    as [H1 _].
  - vm_refl.
  - vm_refl.
  - vm_refl.
  - apply (H1 0 1 (action "run" ["ctrl+r"]) (action "run" ["shift+F10"]));
      [lia|reflexivity..].
Defined.

Lemma sync_keymaps_action_count_witness :
  @sync_keymaps elements paste_library windows_file mac_file
    (example_fs windows_paste mac_paste)
  = (Ok (windows_paste_synced, mac_paste_synced),
     example_fs windows_paste_synced mac_paste_synced)
  ∧ length (children windows_paste_synced)
    = length (findall windows_paste "action")
      + size (action_ids mac_paste ∖ action_ids windows_paste)
  ∧ length (children mac_paste_synced)
    = length (findall mac_paste "action")
      + size (action_ids windows_paste ∖ action_ids mac_paste).
Proof.
  split; [vm_refl|].
  apply (sync_keymaps_action_count elements elements_order (xml:=paste_library)
           windows_file mac_file (example_fs windows_paste mac_paste)
           windows_paste mac_paste windows_paste_synced mac_paste_synced
           (example_fs windows_paste_synced mac_paste_synced)).
  - vm_refl.
  - vm_refl.
  - vm_refl.
Defined.

Lemma sync_keymaps_succeeds_witness :
  well_formed windows_paste = true ∧ well_formed mac_paste = true
  ∧ ∃ w' m' fs',
      @sync_keymaps elements paste_library windows_file mac_file
        (example_fs windows_paste mac_paste)
      = (Ok (w', m'), fs').
Proof.
  split; [reflexivity|]. split; [reflexivity|].
  apply (sync_keymaps_succeeds elements elements_order (xml:=paste_library)
           windows_file mac_file (example_fs windows_paste mac_paste)
           windows_paste mac_paste
           (File (example_tostring windows_paste) true true)
           (File (example_tostring mac_paste) true true)).
  - vm_refl.
  - vm_refl.
  - reflexivity.
  - reflexivity.
  - vm_refl.
  - reflexivity.
  - vm_refl.
  - reflexivity.
Defined.

Lemma sync_keymaps_readonly_mac_witness :
  readonly_fs windows_paste mac_paste !! mac_file
  = Some (File (example_tostring mac_paste) true false)
  ∧ ∃ w',
      @sync_keymaps elements paste_library windows_file mac_file
        (readonly_fs windows_paste mac_paste)
      = (Raise OSError,
         <[windows_file := File (@render paste_library w') true true]>
           (readonly_fs windows_paste mac_paste))
      ∧ action_ids w' = action_ids windows_paste ∪ action_ids mac_paste.
Proof.
  split; [vm_refl|].
  apply (sync_keymaps_readonly_mac elements elements_order (xml:=paste_library)
           windows_file mac_file (readonly_fs windows_paste mac_paste)
           windows_paste mac_paste
           (File (example_tostring windows_paste) true true)
           (File (example_tostring mac_paste) true false)).
  - discriminate.
  - vm_refl.
  - vm_refl.
  - reflexivity.
  - reflexivity.
  - vm_refl.
  - reflexivity.
  - vm_refl.
  - reflexivity.
Defined.

Lemma sync_keymaps_same_order_witness :
  @sync_keymaps elements paste_library windows_file mac_file
    (example_fs windows_paste mac_paste)
  = (Ok (windows_paste_synced, mac_paste_synced),
     example_fs windows_paste_synced mac_paste_synced)
  ∧ (λ a, get a "id") <$> children windows_paste_synced
    = (λ a, get a "id") <$> children mac_paste_synced.
Proof.
  split; [vm_refl|].
  apply (sync_keymaps_same_order elements elements_order (xml:=paste_library)
           windows_file mac_file (example_fs windows_paste mac_paste)
           windows_paste mac_paste windows_paste_synced mac_paste_synced
           (example_fs windows_paste_synced mac_paste_synced)).
  - vm_refl.
  - vm_refl.
  - vm_refl.
  - apply (bool_decide_unpack _). vm_compute. exact I.
  - apply (bool_decide_unpack _). vm_compute. exact I.
Defined.

Lemma main_complete_witness :
  @main elements paste_library (example_fs windows_paste mac_paste)
  = (Ok "Keymap synchronization complete!",
     example_fs windows_paste_synced mac_paste_synced)
  ∧ ∃ w' m',
      example_fs windows_paste_synced mac_paste_synced !! "Windows - Fraser.xml"
      = Some (File (@render paste_library w') true true)
      ∧ example_fs windows_paste_synced mac_paste_synced !! "macOS - Fraser.xml"
        = Some (File (@render paste_library m') true true)
      ∧ action_ids w' = action_ids m'
      ∧ StronglySorted id_leq (children w')
      ∧ StronglySorted id_leq (children m').
Proof.
  assert (@main elements paste_library (example_fs windows_paste mac_paste)
          = (Ok "Keymap synchronization complete!",
             example_fs windows_paste_synced mac_paste_synced)) as Hrun by vm_refl.
  split; [exact Hrun|].
  destruct (main_complete elements elements_order (xml:=paste_library) _ _ _ Hrun)
    as [_ H].
  exact H.
Defined.

Lemma sync_keymaps_idless_windows_witness :
  2 ≤ length (findall windows_halfid "action")
  ∧ Exists (λ a, get a "id" = None) (findall windows_halfid "action")
  ∧ (@sync_keymaps elements halfid_library windows_file mac_file
       (example_fs windows_halfid mac_empty)
     = (Raise AttributeError, example_fs windows_halfid mac_empty)
     ∨ @sync_keymaps elements halfid_library windows_file mac_file
         (example_fs windows_halfid mac_empty)
       = (Raise TypeError, example_fs windows_halfid mac_empty)).
Proof.
  assert (2 ≤ length (findall windows_halfid "action")) as Hlen
    by (vm_compute; lia).
  assert (Exists (λ a, get a "id" = None) (findall windows_halfid "action"))
    as Hnone.
  { apply (bool_decide_unpack _). vm_compute. exact I. }
  split; [exact Hlen|]. split; [exact Hnone|].
  apply (sync_keymaps_idless_windows elements elements_order
           (xml:=halfid_library) windows_file mac_file
           (example_fs windows_halfid mac_empty) windows_halfid mac_empty).
  - vm_refl.
  - vm_refl.
  - exact Hlen.
  - exact Hnone.
Defined.

(** X26. Translation never maps two different keystroke strings to the same
    one, as long as neither holds the token that translation writes. *)
Theorem convert_shortcut_injective (s1 s2 : string) (to_mac : bool) :
  contains s1 (if to_mac then "meta" else "ctrl") = false →
  contains s2 (if to_mac then "meta" else "ctrl") = false →
  s1 ≠ s2 →
  convert_shortcut s1 to_mac ≠ convert_shortcut s2 to_mac.
Proof.
  intros H1 H2 Hne Heq. apply Hne. unfold convert_shortcut in Heq.
  destruct to_mac.
  - rewrite <- (replace_roundtrip "ctrl" "m" "eta" s1),
      <- (replace_roundtrip "ctrl" "m" "eta" s2) by done.
    by rewrite Heq.
  - rewrite <- (replace_roundtrip "meta" "c" "trl" s1),
      <- (replace_roundtrip "meta" "c" "trl" s2) by done.
    by rewrite Heq.
Qed.

Lemma convert_shortcut_injective_witness :
  contains "ctrl+v" "meta" = false ∧ contains "ctrl+c" "meta" = false
  ∧ "ctrl+v" ≠ "ctrl+c"
  ∧ convert_shortcut "ctrl+v" true ≠ convert_shortcut "ctrl+c" true.
Proof.
  split; [reflexivity|]. split; [reflexivity|]. split; [discriminate|].
  apply (convert_shortcut_injective "ctrl+v" "ctrl+c" true);
    [reflexivity|reflexivity|discriminate].
Defined.
